(** * Credential and event-delivery core of the WhatsApp gateway

    A shallow embedding of
    - [services/apikey.service.js]   (module [ApiKeyService]),
    - [middlewares/auth.js]          (module [Auth]),
    - [services/whatsapp.service.js] (module [WhatsAppService]),
    - [routes/webhook.routes.js]     (module [WebhookRoutes]),
    - [controllers/message.controller.js] (module [MessageController]),
    followed by the properties of the specification that were checked
    against it.

    Conventions.  Instants ([new Date()], ISO-8601 strings) are the number
    of milliseconds since the epoch, a [Z]; the current instant is an
    explicit argument [now].  The key file [data/api-keys.json] is the
    state: every operation takes the array [data.keys] that [loadApiKeys]
    reads and returns the array that [saveApiKeys] writes (file-system
    failures are outside the model).  Random values ([crypto.randomUUID],
    [crypto.randomBytes]) are arguments. *)

From Stdlib Require Import ZArith Ascii String.
From stdpp Require Import base decidable option list strings numbers gmap pretty.

Local Open Scope string_scope.
Local Open Scope list_scope.
Local Open Scope nat_scope.

(** ** services/apikey.service.js *)

Module ApiKeyService.

(** The [expiresAt] property: [null], a date (a [Date] or a string that
    [new Date] parses), or a non-empty string for which [new Date] gives
    an invalid date. *)
Inductive expiry :=
  | NoExpiry
  | ExpiresAt (t : Z)
  | InvalidDate.

Global Instance expiry_eq_dec : EqDecision expiry.
Proof. solve_decision. Defined.

Record ApiKeyRecord := mkApiKey {
  id : string;
  key : string;
  name : string;
  description : string;
  permissions : list string;
  active : bool;
  createdAt : Z;
  expiresAt : expiry;
  lastUsedAt : option Z;
  usageCount : Z;
  revokedAt : option Z;
  updatedAt : option Z;
  regeneratedAt : option Z
}.

Global Instance ApiKeyRecord_eq_dec : EqDecision ApiKeyRecord.
Proof. solve_decision. Defined.

(** Property assignments [k.field = v]. *)
Definition set_id v k :=
  mkApiKey v (key k) (name k) (description k) (permissions k) (active k)
    (createdAt k) (expiresAt k) (lastUsedAt k) (usageCount k)
    (revokedAt k) (updatedAt k) (regeneratedAt k).
Definition set_key v k :=
  mkApiKey (id k) v (name k) (description k) (permissions k) (active k)
    (createdAt k) (expiresAt k) (lastUsedAt k) (usageCount k)
    (revokedAt k) (updatedAt k) (regeneratedAt k).
Definition set_name v k :=
  mkApiKey (id k) (key k) v (description k) (permissions k) (active k)
    (createdAt k) (expiresAt k) (lastUsedAt k) (usageCount k)
    (revokedAt k) (updatedAt k) (regeneratedAt k).
Definition set_description v k :=
  mkApiKey (id k) (key k) (name k) v (permissions k) (active k)
    (createdAt k) (expiresAt k) (lastUsedAt k) (usageCount k)
    (revokedAt k) (updatedAt k) (regeneratedAt k).
Definition set_permissions v k :=
  mkApiKey (id k) (key k) (name k) (description k) v (active k)
    (createdAt k) (expiresAt k) (lastUsedAt k) (usageCount k)
    (revokedAt k) (updatedAt k) (regeneratedAt k).
Definition set_active v k :=
  mkApiKey (id k) (key k) (name k) (description k) (permissions k) v
    (createdAt k) (expiresAt k) (lastUsedAt k) (usageCount k)
    (revokedAt k) (updatedAt k) (regeneratedAt k).
Definition set_createdAt v k :=
  mkApiKey (id k) (key k) (name k) (description k) (permissions k) (active k)
    v (expiresAt k) (lastUsedAt k) (usageCount k)
    (revokedAt k) (updatedAt k) (regeneratedAt k).
Definition set_expiresAt v k :=
  mkApiKey (id k) (key k) (name k) (description k) (permissions k) (active k)
    (createdAt k) v (lastUsedAt k) (usageCount k)
    (revokedAt k) (updatedAt k) (regeneratedAt k).
Definition set_lastUsedAt v k :=
  mkApiKey (id k) (key k) (name k) (description k) (permissions k) (active k)
    (createdAt k) (expiresAt k) v (usageCount k)
    (revokedAt k) (updatedAt k) (regeneratedAt k).
Definition set_usageCount v k :=
  mkApiKey (id k) (key k) (name k) (description k) (permissions k) (active k)
    (createdAt k) (expiresAt k) (lastUsedAt k) v
    (revokedAt k) (updatedAt k) (regeneratedAt k).
Definition set_revokedAt v k :=
  mkApiKey (id k) (key k) (name k) (description k) (permissions k) (active k)
    (createdAt k) (expiresAt k) (lastUsedAt k) (usageCount k)
    v (updatedAt k) (regeneratedAt k).
Definition set_updatedAt v k :=
  mkApiKey (id k) (key k) (name k) (description k) (permissions k) (active k)
    (createdAt k) (expiresAt k) (lastUsedAt k) (usageCount k)
    (revokedAt k) v (regeneratedAt k).
Definition set_regeneratedAt v k :=
  mkApiKey (id k) (key k) (name k) (description k) (permissions k) (active k)
    (createdAt k) (expiresAt k) (lastUsedAt k) (usageCount k)
    (revokedAt k) (updatedAt k) v.

(** [process.env]: the two variables the code reads. *)
Record Env := mkEnv {
  API_KEY : option string;
  NODE_ENV : option string
}.

(** What a mutating operation answers: [{success: true, ...}] with its
    payload, or [{success: false, error}]. *)
Inductive result (A : Type) :=
  | Success (a : A)
  | Failure (error : string).
Arguments Success {A} a.
Arguments Failure {A} error.

(** *** generateKey *)

Definition hexDigit (n : N) : ascii :=
  match n with
  | 0%N => "0" | 1%N => "1" | 2%N => "2" | 3%N => "3"
  | 4%N => "4" | 5%N => "5" | 6%N => "6" | 7%N => "7"
  | 8%N => "8" | 9%N => "9" | 10%N => "a" | 11%N => "b"
  | 12%N => "c" | 13%N => "d" | 14%N => "e" | _ => "f"
  end%char.

(** [buf.toString('hex')] *)
Fixpoint toHex (bytes : list Byte.byte) : string :=
  match bytes with
  | [] => ""
  | b :: rest =>
      let n := Byte.to_N b in
      String (hexDigit (n / 16)) (String (hexDigit (n mod 16)) (toHex rest))
  end.

(** [generateKey], on the bytes [crypto.randomBytes(24)] returned. *)
Definition generateKey (randomBytes : list Byte.byte) : string :=
  "wapi_" +:+ toHex randomBytes.

(** *** createApiKey *)

(** The [options] object; [None] is an absent ([undefined]) property. *)
Record Options := mkOptions {
  opt_name : option string;
  opt_description : option string;
  opt_expiresAt : option expiry;
  opt_permissions : option (list string)
}.

(** [createApiKey()] and [createApiKey({})]. *)
Definition noOptions : Options := mkOptions None None None None.

(** [s || d] on a string property: [undefined] and [''] are falsy. *)
Definition strOr (s : option string) (d : string) : string :=
  match s with
  | Some v => if bool_decide (v = "") then d else v
  | None => d
  end.

(** [p || d] on an array property: every array is truthy. *)
Definition arrOr (p : option (list string)) (d : list string) : list string :=
  match p with
  | Some v => v
  | None => d
  end.

(** [e || null] on the expiry. *)
Definition expOr (e : option expiry) : expiry :=
  match e with
  | Some v => v
  | None => NoExpiry
  end.

Definition createApiKey (options : Options) (uuid : string)
    (randomBytes : list Byte.byte) (now : Z) (data : list ApiKeyRecord)
    : ApiKeyRecord * list ApiKeyRecord :=
  let newKey := {|
    id := uuid;
    key := generateKey randomBytes;
    name := strOr (opt_name options) "API Key";
    description := strOr (opt_description options) "";
    permissions := arrOr (opt_permissions options) ["*"];
    active := true;
    createdAt := now;
    expiresAt := expOr (opt_expiresAt options);
    lastUsedAt := None;
    usageCount := 0;
    revokedAt := None;
    updatedAt := None;
    regeneratedAt := None
  |} in
  (newKey, (data ++ [newKey])%list).

(** *** validateApiKey *)

(** The object [validateApiKey] returns (and the one the middleware puts
    in [req.apiKeyInfo]). *)
Inductive KeyInfo :=
  | MasterInfo              (* {id:'master', name:'Master Key', permissions:['*'], isMaster:true} *)
  | DevelopmentInfo         (* {isMaster:true, permissions:['*']} *)
  | StoredInfo (k : ApiKeyRecord).

Definition isMaster (info : KeyInfo) : bool :=
  match info with
  | MasterInfo | DevelopmentInfo => true
  | StoredInfo _ => false
  end.

Definition infoPermissions (info : KeyInfo) : list string :=
  match info with
  | MasterInfo | DevelopmentInfo => ["*"]
  | StoredInfo k => permissions k
  end.

(** [masterKey && apiKey === masterKey] *)
Definition matchesMaster (env : Env) (apiKey : string) : bool :=
  match API_KEY env with
  | Some masterKey =>
      negb (bool_decide (masterKey = "")) && bool_decide (apiKey = masterKey)
  | None => false
  end.

(** [keyInfo.expiresAt && new Date(keyInfo.expiresAt) < new Date()] *)
Definition isExpired (now : Z) (k : ApiKeyRecord) : bool :=
  match expiresAt k with
  | NoExpiry => false
  | ExpiresAt t => bool_decide (t < now)%Z
  | InvalidDate => false
  end.

(** [keyInfo.lastUsedAt = ...; keyInfo.usageCount++] *)
Definition recordUse (now : Z) (k : ApiKeyRecord) : ApiKeyRecord :=
  set_usageCount (usageCount k + 1)%Z (set_lastUsedAt (Some now) k).

Definition validateApiKey (env : Env) (now : Z) (data : list ApiKeyRecord)
    (apiKey : string) : option KeyInfo * list ApiKeyRecord :=
  if matchesMaster env apiKey then (Some MasterInfo, data)
  else
    match list_find (λ k, key k = apiKey ∧ active k = true) data with
    | None => (None, data)
    | Some (i, keyInfo) =>
        if isExpired now keyInfo then (None, data)
        else
          let keyInfo' := recordUse now keyInfo in
          (Some (StoredInfo keyInfo'), <[i := keyInfo']> data)
    end.

(** *** listApiKeys and getApiKeyById *)

(** [s.substring(0, n)] *)
Fixpoint substring0 (n : nat) (s : string) : string :=
  match n, s with
  | S n', String c s' => String c (substring0 n' s')
  | _, _ => ""
  end.

(** [s.slice(-n)] for [n > 0] *)
Definition sliceLast (n : nat) (s : string) : string :=
  String.substring (String.length s - n) n s.

(** [`${k.key.substring(0, 12)}...${k.key.slice(-4)}`] *)
Definition maskKey (s : string) : string :=
  substring0 12 s +:+ "..." +:+ sliceLast 4 s.

(** An entry of the listing. *)
Record KeyView := mkView {
  v_id : string;
  v_key : string;
  v_name : string;
  v_description : string;
  v_permissions : list string;
  v_active : bool;
  v_createdAt : Z;
  v_expiresAt : expiry;
  v_lastUsedAt : option Z;
  v_usageCount : Z
}.

Definition listApiKeys (includeKey : bool) (data : list ApiKeyRecord)
    : list KeyView :=
  (λ k, {|
     v_id := id k;
     v_key := if includeKey then key k else maskKey (key k);
     v_name := name k;
     v_description := description k;
     v_permissions := permissions k;
     v_active := active k;
     v_createdAt := createdAt k;
     v_expiresAt := expiresAt k;
     v_lastUsedAt := lastUsedAt k;
     v_usageCount := usageCount k
   |}) <$> data.

Definition getApiKeyById (i : string) (data : list ApiKeyRecord)
    : option ApiKeyRecord :=
  snd <$> list_find (λ k, id k = i) data.

(** [data.keys.findIndex(k => k.id === id)]; [None] is [-1]. *)
Definition findIndexById (i : string) (data : list ApiKeyRecord) : option nat :=
  fst <$> list_find (λ k, id k = i) data.

Definition notFound : string := "API Key no encontrada".

(** *** revokeApiKey, activateApiKey, deleteApiKey *)

Definition revokeApiKey (i : string) (now : Z) (data : list ApiKeyRecord)
    : result string * list ApiKeyRecord :=
  match findIndexById i data with
  | None => (Failure notFound, data)
  | Some keyIndex =>
      (Success "API Key revocada correctamente",
       alter (λ k, set_revokedAt (Some now) (set_active false k)) keyIndex data)
  end.

Definition activateApiKey (i : string) (data : list ApiKeyRecord)
    : result string * list ApiKeyRecord :=
  match findIndexById i data with
  | None => (Failure notFound, data)
  | Some keyIndex =>
      (Success "API Key activada correctamente",
       alter (λ k, set_revokedAt None (set_active true k)) keyIndex data)
  end.

Definition deleteApiKey (i : string) (data : list ApiKeyRecord)
    : result string * list ApiKeyRecord :=
  match findIndexById i data with
  | None => (Failure notFound, data)
  | Some keyIndex =>
      (Success "API Key eliminada permanentemente", delete keyIndex data)
  end.

(** *** updateApiKey *)

(** The property names of a record an [updates] object can carry. *)
Inductive field :=
  | FId | FKey | FName | FDescription | FPermissions | FActive
  | FCreatedAt | FExpiresAt | FLastUsedAt | FUsageCount.

(** The [updates] object; [None] is an absent ([undefined]) property. *)
Record Updates := mkUpdates {
  upd_id : option string;
  upd_key : option string;
  upd_name : option string;
  upd_description : option string;
  upd_permissions : option (list string);
  upd_active : option bool;
  upd_createdAt : option Z;
  upd_expiresAt : option expiry;
  upd_lastUsedAt : option (option Z);
  upd_usageCount : option Z
}.

Definition orKeep {A B} (o : option A) (set : A → B → B) (k : B) : B :=
  match o with
  | Some v => set v k
  | None => k
  end.

(** [if (updates[field] !== undefined) k[field] = updates[field]] *)
Definition copyField (updates : Updates) (k : ApiKeyRecord) (f : field)
    : ApiKeyRecord :=
  match f with
  | FId => orKeep (upd_id updates) set_id k
  | FKey => orKeep (upd_key updates) set_key k
  | FName => orKeep (upd_name updates) set_name k
  | FDescription => orKeep (upd_description updates) set_description k
  | FPermissions => orKeep (upd_permissions updates) set_permissions k
  | FActive => orKeep (upd_active updates) set_active k
  | FCreatedAt => orKeep (upd_createdAt updates) set_createdAt k
  | FExpiresAt => orKeep (upd_expiresAt updates) set_expiresAt k
  | FLastUsedAt => orKeep (upd_lastUsedAt updates) set_lastUsedAt k
  | FUsageCount => orKeep (upd_usageCount updates) set_usageCount k
  end.

Definition allowedUpdates : list field :=
  [FName; FDescription; FPermissions; FExpiresAt].

Definition applyUpdates (updates : Updates) (now : Z) (k : ApiKeyRecord)
    : ApiKeyRecord :=
  set_updatedAt (Some now) (foldl (copyField updates) k allowedUpdates).

Definition updateApiKey (i : string) (updates : Updates) (now : Z)
    (data : list ApiKeyRecord) : result ApiKeyRecord * list ApiKeyRecord :=
  match list_find (λ k, id k = i) data with
  | None => (Failure notFound, data)
  | Some (keyIndex, k) =>
      let k' := applyUpdates updates now k in
      (Success k', <[keyIndex := k']> data)
  end.

(** *** regenerateApiKey *)

Definition regenerateApiKey (i : string) (randomBytes : list Byte.byte)
    (now : Z) (data : list ApiKeyRecord) : result string * list ApiKeyRecord :=
  match findIndexById i data with
  | None => (Failure notFound, data)
  | Some keyIndex =>
      let newKey := generateKey randomBytes in
      (Success newKey,
       alter (λ k, set_regeneratedAt (Some now) (set_key newKey k)) keyIndex data)
  end.

End ApiKeyService.

(** ** middlewares/auth.js *)

Module Auth.
Import ApiKeyService.

(** The JSON body of a rejection, with its HTTP status. *)
Record Rejection := mkRejection {
  status : Z;
  error : string;
  code : string
}.

(** What a middleware does with a request: call [next()] with
    [req.apiKeyInfo] as it then stands, or answer. *)
Inductive outcome :=
  | Next (apiKeyInfo : option KeyInfo)
  | Respond (r : Rejection).

(** [!process.env.API_KEY && process.env.NODE_ENV === 'development'] *)
Definition developmentMode (env : Env) : bool :=
  match API_KEY env with
  | None => bool_decide (NODE_ENV env = Some "development")
  | Some m => bool_decide (m = "") && bool_decide (NODE_ENV env = Some "development")
  end.

(** [!apiKey] on the header value. *)
Definition missing (header : option string) : bool :=
  match header with
  | None => true
  | Some v => bool_decide (v = "")
  end.

Definition MISSING_API_KEY : Rejection :=
  mkRejection 401 "API Key requerida" "MISSING_API_KEY".
Definition INVALID_API_KEY : Rejection :=
  mkRejection 403 "API Key inválida o expirada" "INVALID_API_KEY".
Definition MASTER_KEY_REQUIRED : Rejection :=
  mkRejection 403 "Se requiere la Master Key para esta operación"
    "MASTER_KEY_REQUIRED".
Definition NOT_AUTHENTICATED : Rejection :=
  mkRejection 401 "No autenticado" "NOT_AUTHENTICATED".
Definition INSUFFICIENT_PERMISSIONS : Rejection :=
  mkRejection 403 "Permisos insuficientes" "INSUFFICIENT_PERMISSIONS".

Definition apiKeyAuth (env : Env) (now : Z) (data : list ApiKeyRecord)
    (header : option string) : outcome * list ApiKeyRecord :=
  if developmentMode env then (Next (Some DevelopmentInfo), data)
  else
    match header with
    | None => (Respond MISSING_API_KEY, data)
    | Some apiKey =>
        if bool_decide (apiKey = "") then (Respond MISSING_API_KEY, data)
        else
          match validateApiKey env now data apiKey with
          | (None, data') => (Respond INVALID_API_KEY, data')
          | (Some keyInfo, data') => (Next (Some keyInfo), data')
          end
    end.

Definition masterKeyAuth (env : Env) (header : option string) : outcome :=
  if developmentMode env then Next (Some DevelopmentInfo)
  else if missing header then Respond MISSING_API_KEY
  else if bool_decide (header = API_KEY env) then Next (Some DevelopmentInfo)
  else Respond MASTER_KEY_REQUIRED.

(** The argument of [requirePermission]: one permission or an array. *)
Inductive required :=
  | One (p : string)
  | Many (ps : list string).

(** [Array.isArray(r) ? r : [r]] *)
Definition asArray (r : required) : list string :=
  match r with
  | One p => [p]
  | Many ps => ps
  end.

(** [arr.includes(p)] *)
Definition includes (p : string) (arr : list string) : bool :=
  bool_decide (p ∈ arr).

Definition requirePermission (requiredPermissions : required)
    (apiKeyInfo : option KeyInfo) : outcome :=
  match apiKeyInfo with
  | None => Respond NOT_AUTHENTICATED
  | Some keyInfo =>
      if isMaster keyInfo || includes "*" (infoPermissions keyInfo)
      then Next apiKeyInfo
      else
        let permissions := asArray requiredPermissions in
        let hasPermission :=
          existsb (λ p, includes p (infoPermissions keyInfo)) permissions in
        if hasPermission then Next apiKeyInfo
        else Respond INSUFFICIENT_PERMISSIONS
  end.

(** [optionalAuth]: with a header the request goes through [apiKeyAuth];
    without one it goes on as it is, [req.apiKeyInfo] unset. *)
Definition optionalAuth (env : Env) (now : Z) (data : list ApiKeyRecord)
    (header : option string) : outcome * list ApiKeyRecord :=
  if missing header then (Next None, data)
  else apiKeyAuth env now data header.

End Auth.

(** ** services/whatsapp.service.js *)

Module WhatsAppService.

(** How a call ends: it returns, or it throws [new Error(message)]. *)
Inductive completion (A : Type) :=
  | Returned (a : A)
  | Thrown (message : string).
Arguments Returned {A} a.
Arguments Thrown {A} message.

(** *** The event hub: on and emit *)

Section EventHub.
Context {W D : Type}.

(** A handler is a function of the event data acting on the rest of the
    process, [W]. *)
Definition handler := D → W → W * completion unit.

(** [on(event, handler)]: [this.eventHandlers], a [Map] from event names
    to arrays of handlers. *)
Definition on (event : string) (h : handler)
    (eventHandlers : gmap string (list handler)) : gmap string (list handler) :=
  <[event := (default [] (eventHandlers !! event) ++ [h])%list]> eventHandlers.

(** [handlers.forEach(handler => handler(data))]: an exception leaves the
    loop. *)
Fixpoint forEach (handlers : list handler) (data : D) (w : W)
    : W * completion unit :=
  match handlers with
  | [] => (w, Returned ())
  | h :: rest =>
      match h data w with
      | (w', Returned _) => forEach rest data w'
      | (w', Thrown e) => (w', Thrown e)
      end
  end.

Definition emit (event : string) (data : D)
    (eventHandlers : gmap string (list handler)) (w : W) : W * completion unit :=
  forEach (default [] (eventHandlers !! event)) data w.

End EventHub.

(** *** Sending *)

(** What [sendMessage] resolves to. *)
Record SendResult := mkSendResult {
  messageId : string;
  whatsappId : string;
  phone : string;
  status : string;
  timestamp : Z
}.

(** An entry of the array [sendBulkMessages] resolves to:
    [{phone, ...result, success: true}] or
    [{phone, success: false, error}]. *)
Inductive BulkEntry :=
  | Sent (phone : string) (result : SendResult)
  | NotSent (phone : string) (error : string).

Definition entryPhone (e : BulkEntry) : string :=
  match e with
  | Sent _ r => phone r
  | NotSent p _ => p
  end.

Definition success (e : BulkEntry) : bool :=
  match e with
  | Sent _ _ => true
  | NotSent _ _ => false
  end.

(** What the loop does, in order: a call of [sendMessage], or an awaited
    [sleep]. *)
Inductive action :=
  | SendTo (phone : string)
  | Sleep (ms : Z).

Definition isSleep (a : action) : bool :=
  match a with
  | Sleep _ => true
  | SendTo _ => false
  end.

Definition isDigit (c : ascii) : bool :=
  let n := nat_of_ascii c in ((48 <=? n) && (n <=? 57))%nat.

(** [s.replace(/\D/g, '')] *)
Fixpoint digitsOnly (s : string) : string :=
  match s with
  | EmptyString => EmptyString
  | String c s' => if isDigit c then String c (digitsOnly s') else digitsOnly s'
  end.

Fixpoint endsWith (suffix s : string) : bool :=
  bool_decide (s = suffix) ||
  match s with
  | EmptyString => false
  | String _ s' => endsWith suffix s'
  end.

Definition formatPhoneNumber (phone : string) : string :=
  let cleaned := digitsOnly phone in
  if endsWith "@c.us" cleaned then cleaned else cleaned +:+ "@c.us".

Section Sending.
(** The WhatsApp client with everything else outside the service: the
    clock and the random generator. *)
Context {C : Type}.
(** [this.client.sendMessage(chatId, content)]: the serialized id of the
    sent message, or the message of the error it rejects with. *)
Variable clientSendMessage : C → string → string → C * (string + string).
Variable uuidv4 : C → C * string.
Variable clock : C → Z.

(** The fields of the service the loop depends on. *)
Record Service := mkService {
  isReady : bool;
  client : C
}.

(** What happens to the service while [sleep(ms)] is awaited: the client's
    events run and may change [isReady]. *)
Variable during : Z → Service → Service.

Definition notConnected : string := "WhatsApp no está conectado".

Definition sendMessage (to message : string) (sv : Service)
    : Service * completion SendResult :=
  if negb (isReady sv) then (sv, Thrown notConnected)
  else
    let formattedPhone := formatPhoneNumber to in
    let '(c1, messageId) := uuidv4 (client sv) in
    match clientSendMessage c1 formattedPhone message with
    | (c2, inl serialized) =>
        (mkService (isReady sv) c2,
         Returned (mkSendResult messageId serialized to "sent" (clock c2)))
    | (c2, inr e) => (mkService (isReady sv) c2, Thrown e)
    end.

(** [recipients.indexOf(phone)]; [None] is [-1]. *)
Definition indexOf (x : string) (recipients : list string) : option nat :=
  fst <$> list_find (λ y, y = x) recipients.

(** [recipients.indexOf(phone) < recipients.length - 1] *)
Definition notLast (x : string) (recipients : list string) : bool :=
  let i := match indexOf x recipients with
           | Some n => Z.of_nat n
           | None => (-1)%Z
           end in
  bool_decide (i < Z.of_nat (length recipients) - 1)%Z.

(** The state of the loop: the service, the [results] array and the
    actions so far. *)
Record LoopState := mkLoop {
  service : Service;
  results : list BulkEntry;
  actions : list action
}.

(** One turn of [for (const phone of recipients)]. *)
Definition turn (recipients : list string) (message : string) (delay : Z)
    (st : LoopState) (phone : string) : LoopState :=
  let '(sv1, r) := sendMessage phone message (service st) in
  let entry := match r with
               | Returned result => Sent phone result
               | Thrown e => NotSent phone e
               end in
  let results1 := (results st ++ [entry])%list in
  let actions1 := (actions st ++ [SendTo phone])%list in
  if notLast phone recipients
  then mkLoop (during delay sv1) results1 (actions1 ++ [Sleep delay])%list
  else mkLoop sv1 results1 actions1.

(** [options.delay || 2000] *)
Definition delayOf (delay : option Z) : Z :=
  match delay with
  | Some d => if bool_decide (d = 0)%Z then 2000%Z else d
  | None => 2000%Z
  end.

Definition sendBulkMessages (recipients : list string) (message : string)
    (delay : option Z) (sv : Service) : LoopState :=
  foldl (turn recipients message (delayOf delay)) (mkLoop sv [] []) recipients.

End Sending.

End WhatsAppService.

(** ** controllers/message.controller.js *)

Module MessageController.
Import WhatsAppService.

(** The [data] of the answer of [POST /api/messages/send-bulk]. *)
Record BulkReport := mkReport {
  total : nat;
  successful : nat;
  failed : nat;
  report : list BulkEntry
}.

Section Controller.
Context {C : Type}.
Variable clientSendMessage : C → string → string → C * (string + string).
Variable uuidv4 : C → C * string.
Variable clock : C → Z.
Variable during : Z → @Service C → @Service C.

(** The handler of the route: the service it leaves and the report it
    answers with. The service never rejects, so [next(error)] is never
    reached. *)
Definition sendBulkMessages (recipients : list string) (message : string)
    (delay : option Z) (sv : @Service C) : @Service C * BulkReport :=
  let st := WhatsAppService.sendBulkMessages clientSendMessage uuidv4 clock
              during recipients message delay sv in
  (service st,
   {| total := length recipients;
      successful := length (filter (λ r, success r = true) (results st));
      failed := length (filter (λ r, success r = false) (results st));
      report := results st |}).

End Controller.

End MessageController.

(** ** routes/webhook.routes.js *)

Module WebhookRoutes.
Import WhatsAppService.

(** The [secret] of a registration as the body gave it: a string, or
    another JSON value, of which the code reads only whether it is
    truthy. *)
Inductive Secret :=
  | TextSecret (s : string)
  | OtherSecret (truthy : bool).

(** A value of the [webhooks] map. *)
Record Webhook := mkWebhook {
  id : string;
  url : string;
  events : list string;
  secret : option Secret;
  createdAt : Z;
  active : bool
}.

(** The message object of the WhatsApp driver, as far as [serializeData]
    reads it; [internals] stands for everything else it carries. *)
Record WaMessage := mkWaMessage {
  serializedId : option string;
  from : string;
  to : string;
  body : string;
  sentAt : Z;
  type : string;
  isForwarded : bool;
  hasMedia : bool;
  internals : string
}.

(** What an event carries: nothing ([ready], [authenticated]), a message,
    or a string (the QR code, the reason of a disconnection). *)
Inductive EventData :=
  | NoData
  | MessageData (m : WaMessage)
  | TextData (v : string).

(** The [data] of an envelope. *)
Inductive Serialized :=
  | SNull
  | SMessage (mid : option string) (mfrom mto mbody : string) (mtimestamp : Z)
      (mtype : string) (mforwarded mmedia : bool)
  | SText (v : string).

Definition serializeData (data : EventData) : Serialized :=
  match data with
  | NoData => SNull
  | TextData v => if bool_decide (v = "") then SNull else SText v
  | MessageData m =>
      SMessage (serializedId m) (from m) (to m) (body m) (sentAt m) (type m)
        (isForwarded m) (hasMedia m)
  end.

(** The envelope [{event, timestamp, data}]. *)
Record Payload := mkPayload {
  p_event : string;
  p_timestamp : Z;
  p_data : Serialized
}.

(** The [fetch] call: a POST to [target]. *)
Record Request := mkRequest {
  target : string;
  contentType : string;
  xWebhookEvent : string;
  xWebhookSignature : option string;
  requestBody : string;
  timeout : Z
}.

(** A call [sendWebhookNotification(webhook, event, data)] that waits at
    its first [await], made by the listener of the registration [d_id].
    [d_webhook] is the object the listener read from the map; its [url]
    and [secret], which the call reads when it goes on, are never
    written after the registration. *)
Record Delivery := mkDelivery {
  d_id : string;
  d_webhook : Webhook;
  d_event : string;
  d_data : EventData
}.

(** What the handlers act on: the clock, the [webhooks] map, the
    deliveries that wait to go on, the requests whose answer is awaited,
    the requests made so far and the lines written to the log. *)
Record Net := mkNet {
  clock : Z;
  webhooks : gmap string Webhook;
  pending : list Delivery;
  inflight : list Request;
  outbox : list Request;
  logged : list string
}.

(** The body of [POST /api/webhooks/register]; [r_events] is [None] when
    the property is not an array. *)
Record RegisterBody := mkRegisterBody {
  r_url : option string;
  r_events : option (list string);
  r_secret : option Secret
}.

(** What the route answers. *)
Inductive Answer :=
  | Created (webhookId : string) (aurl : string) (aevents : list string)
  | BadRequest (errors : list string)
  | NotFoundAnswer
  | Toggled (tid : string) (tactive : bool)
  | Deleted.

Section Routes.
(** [JSON.stringify], the HMAC-SHA256 of node's [crypto] in hexadecimal
    ([hmacSha256Hex key message]), the [isURL] of express-validator, and
    what [fetch] ends with: the status of the answer, or the message of
    the error it rejects with. *)
Variable stringify : Payload → string.
Variable hmacSha256Hex : string → string → string.
Variable isURL : string → bool.
Variable fetch : Request → Z + string.

(** [if (webhook.secret)], for a secret that is a string. *)
Definition signingKey (wh : Webhook) : option string :=
  match secret wh with
  | Some (TextSecret s) => if bool_decide (s = "") then None else Some s
  | _ => None
  end.

(** [crypto.createHmac('sha256', webhook.secret)] throws on a truthy
    secret that is not a string: no other value of a JSON body is a key
    it takes. *)
Definition refusedByHmac (wh : Webhook) : bool :=
  match secret wh with
  | Some (OtherSecret true) => true
  | _ => false
  end.

(** The request [sendWebhookNotification] makes when it goes on at the
    instant [now], its secret being one [createHmac] takes. *)
Definition notification (wh : Webhook) (event : string)
    (data : EventData) (now : Z) : Request :=
  let payload := mkPayload event now (serializeData data) in
  {| target := url wh;
     contentType := "application/json";
     xWebhookEvent := event;
     xWebhookSignature :=
       (λ s, hmacSha256Hex s (stringify payload)) <$> signingKey wh;
     requestBody := stringify payload;
     timeout := 10000 |}.

(** [sendWebhookNotification] from [await import('node-fetch')] on, at
    the instant [now]: the request it hands to [fetch], or the error of
    [createHmac], named by its code, which it throws before any
    request. *)
Definition sendWebhookNotification (wh : Webhook) (event : string)
    (data : EventData) (now : Z) : Request + string :=
  if refusedByHmac wh then inr "ERR_INVALID_ARG_TYPE"
  else inl (notification wh event data now).

(** The line [sendWebhookNotification] logs when its [fetch] ends. *)
Definition fetchLine (request : Request) : string :=
  match fetch request with
  | inl answer =>
      "Webhook enviado a " +:+ target request +:+ ": " +:+ pretty answer
  | inr e => "Error en webhook " +:+ target request +:+ ": " +:+ e
  end.

(** The listener [async (data) => { try { ... } catch { ... } }] that the
    registration of [webhookId] subscribes to [event]. Within [emit] it
    runs to its first [await]: it reads the map, tests [active] and
    calls [sendWebhookNotification], which stops at
    [await import('node-fetch')]. [emit] does not await it, and an
    [async] function never throws into its caller. *)
Definition forward (webhookId event : string) : @handler Net EventData :=
  λ data net,
    match webhooks net !! webhookId with
    | Some wh =>
        if active wh
        then (mkNet (clock net) (webhooks net)
                (pending net ++ [mkDelivery webhookId wh event data])
                (inflight net) (outbox net) (logged net),
              Returned ())
        else (net, Returned ())
    | None => (net, Returned ())
    end.

(** The [i]-th waiting delivery goes on, at the instant [clock net]: the
    envelope is stamped, signed and handed to [fetch], whose answer is
    then awaited; when [createHmac] throws, the [catch] of the listener
    logs the error and no request is made. *)
Definition resume (i : nat) (net : Net) : Net :=
  match pending net !! i with
  | None => net
  | Some dl =>
      match sendWebhookNotification (d_webhook dl) (d_event dl) (d_data dl)
              (clock net) with
      | inl request =>
          mkNet (clock net) (webhooks net) (delete i (pending net))
            (inflight net ++ [request]) (outbox net ++ [request])
            (logged net)
      | inr e =>
          mkNet (clock net) (webhooks net) (delete i (pending net))
            (inflight net) (outbox net)
            (logged net
               ++ ["Error enviando webhook " +:+ d_id dl +:+ ": " +:+ e])
      end
  end.

(** The [fetch] of the [j]-th request under way ends, with an answer or
    an error: [sendWebhookNotification] logs it, and throws nothing. *)
Definition settle (j : nat) (net : Net) : Net :=
  match inflight net !! j with
  | None => net
  | Some request =>
      mkNet (clock net) (webhooks net) (pending net)
        (delete j (inflight net)) (outbox net)
        (logged net ++ [fetchLine request])
  end.

(** The process as the routes see it. *)
Record Hub := mkHub {
  net : Net;
  eventHandlers : gmap string (list (@handler Net EventData))
}.

(** The validation chain of the route. *)
Definition validationErrors (b : RegisterBody) : list string :=
  ((match r_url b with
    | Some u => if isURL u then [] else ["URL inválida"]
    | None => ["URL inválida"]
    end) ++
   (match r_events b with
    | Some (_ :: _) => []
    | _ => ["Se requiere al menos un evento"]
    end))%list.

Definition register (b : RegisterBody) (hub : Hub) : Answer * Hub :=
  match validationErrors b with
  | _ :: _ as errors => (BadRequest errors, hub)
  | [] =>
      let u := default "" (r_url b) in
      let evs := default [] (r_events b) in
      let now := clock (net hub) in
      let webhookId := "wh_" +:+ pretty now in
      let wh := mkWebhook webhookId u evs (r_secret b) now true in
      let net' := mkNet now (<[webhookId := wh]> (webhooks (net hub)))
                    (pending (net hub)) (inflight (net hub))
                    (outbox (net hub)) (logged (net hub)) in
      let handlers' :=
        foldl (λ hs event, on event (forward webhookId event) hs)
          (eventHandlers hub) evs in
      (Created webhookId u evs, mkHub net' handlers')
  end.

Definition unregister (i : string) (hub : Hub) : Answer * Hub :=
  match webhooks (net hub) !! i with
  | None => (NotFoundAnswer, hub)
  | Some _ =>
      (Deleted,
       mkHub (mkNet (clock (net hub)) (delete i (webhooks (net hub)))
                (pending (net hub)) (inflight (net hub))
                (outbox (net hub)) (logged (net hub)))
         (eventHandlers hub))
  end.

Definition toggle (i : string) (hub : Hub) : Answer * Hub :=
  match webhooks (net hub) !! i with
  | None => (NotFoundAnswer, hub)
  | Some wh =>
      let wh' := mkWebhook (id wh) (url wh) (events wh) (secret wh)
                   (createdAt wh) (negb (active wh)) in
      (Toggled i (active wh'),
       mkHub (mkNet (clock (net hub)) (<[i := wh']> (webhooks (net hub)))
                (pending (net hub)) (inflight (net hub))
                (outbox (net hub)) (logged (net hub)))
         (eventHandlers hub))
  end.

(** [whatsappService.emit(event, data)] on the hub. *)
Definition publish (event : string) (data : EventData) (hub : Hub)
    : Hub * completion unit :=
  let '(net', c) := emit event data (eventHandlers hub) (net hub) in
  (mkHub net' (eventHandlers hub), c).

End Routes.

End WebhookRoutes.


(** ** controllers/apikey.controller.js *)

Module ApiKeyController.
Import ApiKeyService.

(** The [data] of the answer to a creation. *)
Record CreatedView := mkCreated {
  c_id : string;
  c_key : string;
  c_name : string;
  c_description : string;
  c_permissions : list string;
  c_createdAt : Z;
  c_expiresAt : expiry
}.

(** What a controller answers. The [catch] branches (500) are not
    reached: the service functions do not throw. *)
Inductive Answer :=
  | Created (data : CreatedView)
  | Listed (data : list KeyView) (total : nat)
  | Found (data : KeyView)
  | Updated (data : ApiKeyRecord)
  | Done (message : string)
  | Regenerated (key : string)
  | BadRequest (error : string)
  | NotFound (error : string).

Definition httpStatus (a : Answer) : Z :=
  match a with
  | Created _ => 201
  | BadRequest _ => 400
  | NotFound _ => 404
  | _ => 200
  end.

(** [if (!name)] *)
Definition noName (body : Options) : bool :=
  match opt_name body with
  | Some n => bool_decide (n = "")
  | None => true
  end.

Definition createApiKey (body : Options) (uuid : string)
    (randomBytes : list Byte.byte) (now : Z) (data : list ApiKeyRecord)
    : Answer * list ApiKeyRecord :=
  if noName body then (BadRequest "El nombre es requerido", data)
  else
    let '(newKey, data') :=
      ApiKeyService.createApiKey
        (mkOptions (opt_name body) (opt_description body)
           (opt_expiresAt body) (opt_permissions body))
        uuid randomBytes now data in
    (Created (mkCreated (id newKey) (key newKey) (name newKey)
                (description newKey) (permissions newKey) (createdAt newKey)
                (expiresAt newKey)),
     data').

Definition listApiKeys (data : list ApiKeyRecord) : Answer :=
  let keys := ApiKeyService.listApiKeys false data in
  Listed keys (length keys).

Definition getApiKey (i : string) (data : list ApiKeyRecord) : Answer :=
  match getApiKeyById i data with
  | None => NotFound "API Key no encontrada"
  | Some k =>
      Found {| v_id := id k;
               v_key := maskKey (key k);
               v_name := name k;
               v_description := description k;
               v_permissions := permissions k;
               v_active := active k;
               v_createdAt := createdAt k;
               v_expiresAt := expiresAt k;
               v_lastUsedAt := lastUsedAt k;
               v_usageCount := usageCount k |}
  end.

(** Only [name], [description], [permissions] and [expiresAt] of the body
    reach the service. *)
Definition updateApiKey (i : string) (body : Updates) (now : Z)
    (data : list ApiKeyRecord) : Answer * list ApiKeyRecord :=
  match ApiKeyService.updateApiKey i
          (mkUpdates None None (upd_name body) (upd_description body)
             (upd_permissions body) None None (upd_expiresAt body) None None)
          now data with
  | (Failure e, data') => (NotFound e, data')
  | (Success k, data') => (Updated k, data')
  end.

Definition revokeApiKey (i : string) (now : Z) (data : list ApiKeyRecord)
    : Answer * list ApiKeyRecord :=
  match ApiKeyService.revokeApiKey i now data with
  | (Failure e, data') => (NotFound e, data')
  | (Success _, data') => (Done "API Key revocada correctamente", data')
  end.

Definition activateApiKey (i : string) (data : list ApiKeyRecord)
    : Answer * list ApiKeyRecord :=
  match ApiKeyService.activateApiKey i data with
  | (Failure e, data') => (NotFound e, data')
  | (Success _, data') => (Done "API Key activada correctamente", data')
  end.

Definition deleteApiKey (i : string) (data : list ApiKeyRecord)
    : Answer * list ApiKeyRecord :=
  match ApiKeyService.deleteApiKey i data with
  | (Failure e, data') => (NotFound e, data')
  | (Success _, data') => (Done "API Key eliminada permanentemente", data')
  end.

Definition regenerateApiKey (i : string) (randomBytes : list Byte.byte)
    (now : Z) (data : list ApiKeyRecord) : Answer * list ApiKeyRecord :=
  match ApiKeyService.regenerateApiKey i randomBytes now data with
  | (Failure e, data') => (NotFound e, data')
  | (Success k, data') => (Regenerated k, data')
  end.

End ApiKeyController.

(** ** routes/auth.routes.js *)

Module AuthRoutes.
Import ApiKeyService.

(** A request to the key-management routes, with the random values its
    handling draws. *)
Inductive Request :=
  | PostKeys (body : Options) (uuid : string) (randomBytes : list Byte.byte)
  | GetKeys
  | GetKey (i : string)
  | PutKey (i : string) (body : Updates)
  | PostRevoke (i : string)
  | PostActivate (i : string)
  | PostRegenerate (i : string) (randomBytes : list Byte.byte)
  | DeleteKey (i : string).

Inductive Reply :=
  | Rejected (r : Auth.Rejection)
  | Answered (a : ApiKeyController.Answer).

(** [router.<method>(path, masterKeyAuth, controller)] *)
Definition handle (env : Env) (header : option string) (req : Request)
    (now : Z) (data : list ApiKeyRecord) : Reply * list ApiKeyRecord :=
  match Auth.masterKeyAuth env header with
  | Auth.Respond r => (Rejected r, data)
  | Auth.Next _ =>
      let '(a, data') :=
        match req with
        | PostKeys body uuid randomBytes =>
            ApiKeyController.createApiKey body uuid randomBytes now data
        | GetKeys => (ApiKeyController.listApiKeys data, data)
        | GetKey i => (ApiKeyController.getApiKey i data, data)
        | PutKey i body => ApiKeyController.updateApiKey i body now data
        | PostRevoke i => ApiKeyController.revokeApiKey i now data
        | PostActivate i => ApiKeyController.activateApiKey i data
        | PostRegenerate i randomBytes =>
            ApiKeyController.regenerateApiKey i randomBytes now data
        | DeleteKey i => ApiKeyController.deleteApiKey i data
        end in
      (Answered a, data')
  end.

End AuthRoutes.

(** ** middlewares/errorHandler.js *)

Module ErrorHandler.
Import ApiKeyService.

(** The properties of an error the handler reads. *)
Record Err := mkErr {
  name : string;
  message : option string;
  statusCode : option Z;
  stack : option string
}.

(** The answer: the status and the properties of the JSON body
    ([None]: the property is absent). *)
Record Body := mkBody {
  status : Z;
  error : option string;
  code : option string;
  details : option string;
  shownStack : option string
}.

(** [s.includes(needle)] *)
Fixpoint includes (needle s : string) : bool :=
  String.prefix needle s ||
  match s with
  | EmptyString => false
  | String _ s' => includes needle s'
  end.

(** [err.message && err.message.includes('WhatsApp')] *)
Definition mentionsWhatsApp (err : Err) : bool :=
  match message err with
  | Some m => includes "WhatsApp" m
  | None => false
  end.

(** [err.statusCode || 500] *)
Definition statusOr500 (err : Err) : Z :=
  match statusCode err with
  | Some c => if bool_decide (c = 0)%Z then 500%Z else c
  | None => 500%Z
  end.

Definition errorHandler (env : Env) (err : Err) : Body :=
  if bool_decide (name err = "ValidationError")
  then mkBody 400 (Some "Error de validación") None (message err) None
  else if mentionsWhatsApp err
  then mkBody 503 (message err) (Some "WHATSAPP_ERROR") None None
  else
    let production := bool_decide (NODE_ENV env = Some "production") in
    mkBody (statusOr500 err)
      (if production then Some "Error interno del servidor" else message err)
      None None
      (if production then None else stack err).

(** [new Error(message)] *)
Definition newError (m : string) (trace : string) : Err :=
  mkErr "Error" (Some m) None (Some trace).

End ErrorHandler.

(** ** middlewares/validators.js *)

Module Validators.
Import WhatsAppService.

Fixpoint allDigits (s : string) : bool :=
  match s with
  | EmptyString => true
  | String c s' => isDigit c && allDigits s'
  end.

(** [/^\d{10,15}$/.test(s)] *)
Definition phonePattern (s : string) : bool :=
  allDigits s && (10 <=? String.length s)%nat && (String.length s <=? 15)%nat.

(** What a validation chain followed by [handleValidation] does: it
    calls [next()], or answers 400 'Error de validación' (the details of
    the answer are not modelled). *)
Inductive Outcome :=
  | Next
  | ValidationError.

(** The body of a bulk send, its properties being of the JSON types the
    route documents; [None] is an absent property. *)
Record BulkBody := mkBulkBody {
  recipients : option (list string);
  message : option string;
  delay : option Z
}.

Section Chains.
(** [isLength(s, {min, max})] of express-validator, which measures
    strings in its own way. *)
Variable isLength : string → nat → nat → bool.

(** [notEmpty()] then [isLength({min: 1, max: 4096})] *)
Definition messageOk (m : option string) : bool :=
  match m with
  | Some s => negb (bool_decide (s = "")) && isLength s 1 4096
  | None => false
  end.

Definition validatePhone (phone : string) : Outcome :=
  if phonePattern phone then Next else ValidationError.

Definition validateSendMessage (phone message : option string) : Outcome :=
  if match phone with
     | Some p => negb (bool_decide (p = "")) && phonePattern p
     | None => false
     end && messageOk message
  then Next else ValidationError.

Definition validateBulkMessage (b : BulkBody) : Outcome :=
  if match recipients b with
     | Some rs =>
         (1 <=? length rs)%nat && (length rs <=? 100)%nat
         && forallb phonePattern rs
     | None => false
     end
     && messageOk (message b)
     && match delay b with
        | Some d => (1000 <=? d)%Z && (d <=? 10000)%Z
        | None => true
        end
  then Next else ValidationError.

End Chains.

End Validators.

(** ** services/whatsapp.service.js: the state of the session *)

Module Session.
Import WebhookRoutes.

(** [this.client] (set or not), [this.isReady], [this.qrCode] and
    [this.status]. *)
Record State := mkState {
  hasClient : bool;
  isReady : bool;
  qrCode : option string;
  status : string
}.

(** The state the constructor leaves. *)
Definition constructed : State := mkState false false None "disconnected".

(** The events of the WhatsApp client the service listens to. *)
Inductive ClientEvent :=
  | Qr (qr : string)
  | Ready
  | Authenticated
  | AuthFailure (msg : string)
  | Disconnected (reason : string)
  | Message (m : WaMessage).

(** What the listener of the event writes. *)
Definition onClient (ev : ClientEvent) (s : State) : State :=
  match ev with
  | Qr qr => mkState (hasClient s) (isReady s) (Some qr) "qr_pending"
  | Ready => mkState (hasClient s) true None "connected"
  | Authenticated =>
      mkState (hasClient s) (isReady s) (qrCode s) "authenticated"
  | AuthFailure _ => mkState (hasClient s) (isReady s) (qrCode s) "auth_failed"
  | Disconnected _ => mkState (hasClient s) false (qrCode s) "disconnected"
  | Message _ => s
  end.

(** What the listener of the event passes to [this.emit]. *)
Definition emitted (ev : ClientEvent) : string * EventData :=
  match ev with
  | Qr qr => ("qr", TextData qr)
  | Ready => ("ready", NoData)
  | Authenticated => ("authenticated", NoData)
  | AuthFailure msg => ("auth_failure", TextData msg)
  | Disconnected reason => ("disconnected", TextData reason)
  | Message m => ("message", MessageData m)
  end.

(** [getStatus()] *)
Record Status := mkStatus {
  g_status : string;
  g_isReady : bool;
  g_hasQR : bool
}.

Definition getStatus (s : State) : Status :=
  mkStatus (status s) (isReady s)
    (match qrCode s with
     | Some q => negb (bool_decide (q = ""))
     | None => false
     end).

(** [initialize()], as far as the state goes: a client is created. *)
Definition initialize (s : State) : State :=
  mkState true (isReady s) (qrCode s) (status s).

(** [logout()] and [destroy()]; [resolved] tells whether the call to the
    client resolved, the assignments being skipped when it rejects. *)
Definition logout (resolved : bool) (s : State) : State :=
  if hasClient s && resolved
  then mkState (hasClient s) false (qrCode s) "disconnected"
  else s.

Definition destroy (resolved : bool) (s : State) : State :=
  if hasClient s && resolved
  then mkState (hasClient s) false (qrCode s) "disconnected"
  else s.

(** A client event as the process sees it: the listener writes the state,
    then emits on the hub. *)
Definition dispatch (ev : ClientEvent) (s : State) (hub : Hub)
    : State * (Hub * WhatsAppService.completion unit) :=
  (onClient ev s, publish (emitted ev).1 (emitted ev).2 hub).

End Session.

(** ** services/whatsapp.service.js: isRegistered, and
    controllers/contact.controller.js *)

Module ContactController.
Import WhatsAppService.

(** An entry of the results of a bulk check. *)
Record CheckEntry := mkCheckEntry {
  e_phone : string;
  e_isRegistered : bool;
  e_error : option string
}.

(** The [data] of the answer of [POST /api/contacts/check-bulk]. *)
Record CheckReport := mkCheckReport {
  total : nat;
  registered : nat;
  notRegistered : nat;
  results : list CheckEntry
}.

Section Contacts.
Context {C : Type}.
(** [this.client.isRegisteredUser(chatId)]: the answer, or the message of
    the error it rejects with. *)
Variable isRegisteredUser : C → string → C * (bool + string).
(** What the listeners of the client do to the service while a call to
    the client is awaited. *)
Variable meanwhile : @Service C → @Service C.

(** [isRegistered] of the service. *)
Definition isRegistered (phone : string) (sv : @Service C)
    : @Service C * completion bool :=
  if negb (isReady sv) then (sv, Thrown notConnected)
  else
    match isRegisteredUser (client sv) (formatPhoneNumber phone) with
    | (c', inl b) => (meanwhile (mkService (isReady sv) c'), Returned b)
    | (c', inr e) => (meanwhile (mkService (isReady sv) c'), Thrown e)
    end.

(** One turn of [for (const phone of phones)]. *)
Definition check (st : @Service C * list CheckEntry) (phone : string)
    : @Service C * list CheckEntry :=
  let '(sv1, r) := isRegistered phone st.1 in
  (sv1,
   st.2 ++ [match r with
            | Returned b => mkCheckEntry phone b None
            | Thrown e => mkCheckEntry phone false (Some e)
            end]).

Definition checkBulkNumbers (phones : list string) (sv : @Service C)
    : @Service C * CheckReport :=
  let '(sv', entries) := foldl check (sv, []) phones in
  let n := length (filter (λ r, e_isRegistered r = true) entries) in
  (sv', mkCheckReport (length phones) n (length phones - n) entries).

End Contacts.

End ContactController.
(** * Vocabulary of the statements *)

(** ** Stores, calls and runs of the key service *)

Module KeyStore.
Import ApiKeyService.

(** Secrets are pairwise distinct in a store (the data-model invariant
    "secret never reused across records"). *)
Definition uniqueSecrets (data : list ApiKeyRecord) : Prop :=
  NoDup (key <$> data).

(** The three situations in which a credential is not accepted. *)
Definition unknownSecret (data : list ApiKeyRecord) (apiKey : string) : Prop :=
  ∀ k, k ∈ data → key k ≠ apiKey.
Definition inactiveSecret (data : list ApiKeyRecord) (apiKey : string) : Prop :=
  ∃ k, k ∈ data ∧ key k = apiKey ∧ active k = false.
Definition expiredSecret (now : Z) (data : list ApiKeyRecord) (apiKey : string)
    : Prop :=
  ∃ k t, k ∈ data ∧ key k = apiKey ∧ expiresAt k = ExpiresAt t ∧ (t < now)%Z.

(** The fields an update must leave alone. *)
Definition sameProtectedFields (k k' : ApiKeyRecord) : Prop :=
  id k' = id k ∧ key k' = key k ∧ active k' = active k ∧
  usageCount k' = usageCount k ∧ createdAt k' = createdAt k ∧
  lastUsedAt k' = lastUsedAt k ∧ revokedAt k' = revokedAt k ∧
  regeneratedAt k' = regeneratedAt k.

(** A call of the service that writes the store, with its arguments and
    the random values it draws. *)
Inductive call :=
  | Create (options : Options) (uuid : string) (randomBytes : list Byte.byte)
  | Validate (apiKey : string)
  | Update (i : string) (updates : Updates)
  | Revoke (i : string)
  | Activate (i : string)
  | Delete (i : string)
  | Regenerate (i : string) (randomBytes : list Byte.byte).

(** The store a call made at instant [c.2] leaves. *)
Definition exec (env : Env) (data : list ApiKeyRecord) (c : call * Z)
    : list ApiKeyRecord :=
  let now := c.2 in
  match c.1 with
  | Create options uuid randomBytes =>
      (createApiKey options uuid randomBytes now data).2
  | Validate apiKey => (validateApiKey env now data apiKey).2
  | Update i updates => (updateApiKey i updates now data).2
  | Revoke i => (revokeApiKey i now data).2
  | Activate i => (activateApiKey i data).2
  | Delete i => (deleteApiKey i data).2
  | Regenerate i randomBytes => (regenerateApiKey i randomBytes now data).2
  end.

(** The store after a sequence of calls on the empty store (the one
    [loadApiKeys] gives when there is no file). *)
Definition run (env : Env) (calls : list (call * Z)) : list ApiKeyRecord :=
  foldl (exec env) [] calls.

(** The draws of a sequence of calls are fresh: every secret that
    [createApiKey] or [regenerateApiKey] generates is held by no record of
    the store at that moment. *)
Fixpoint freshDraws (env : Env) (data : list ApiKeyRecord)
    (calls : list (call * Z)) : Prop :=
  match calls with
  | [] => True
  | c :: rest =>
      match c.1 with
      | Create _ _ randomBytes | Regenerate _ randomBytes =>
          generateKey randomBytes ∉ key <$> data
      | _ => True
      end ∧ freshDraws env (exec env data c) rest
  end.

(** Sample values for the examples. *)
Definition sampleEnv : Env := mkEnv (Some "master-secret") (Some "production").
Definition sampleBytes : list Byte.byte := repeat Byte.x3c 24.
Definition otherBytes : list Byte.byte := repeat Byte.xa7 24.

(** A key created at instant 100 and revoked at 200. *)
Definition revokedStore : list ApiKeyRecord :=
  run sampleEnv [(Create noOptions "id-1" sampleBytes, 100%Z);
                 (Revoke "id-1", 200%Z)].

(** A key created at instant 100 that expires at 150. *)
Definition expiringStore : list ApiKeyRecord :=
  run sampleEnv
    [(Create (mkOptions (Some "t") None (Some (ExpiresAt 150)) None)
        "id-2" sampleBytes, 100%Z)].

End KeyStore.

(** ** Observing the event hub *)

Module HubTrace.
Import WhatsAppService.

Section Traced.
Context {W D : Type}.

(** The [i]-th handler together with a note of its call: the same handler
    on a process that also carries the list of the handlers called. *)
Definition traced (i : nat) (h : @handler W D) : @handler (W * list nat) D :=
  λ data st,
    let '(w', c) := h data st.1 in ((w', (st.2 ++ [i])%list), c).

(** A handler that returns whatever the data and the state. *)
Definition neverThrows (h : @handler W D) : Prop :=
  ∀ data w, (h data w).2 = Returned ().

End Traced.

(** Two handlers on a process that is the list of the names called: one
    that returns, one that throws. *)
Definition quiet (name : string) : @handler (list string) unit :=
  λ _ called, ((called ++ [name])%list, Returned ()).
Definition faulty (name : string) : @handler (list string) unit :=
  λ _ called, ((called ++ [name])%list, Thrown "boom").

End HubTrace.

(** ** Observing the bulk send *)

Module BulkTrace.
Import WhatsAppService.

(** What one recipient adds to the actions. *)
Definition step (recipients : list string) (delay : Z) (p : string)
    : list action :=
  SendTo p :: (if notLast p recipients then [Sleep delay] else []).

(** The entry a call of [sendMessage] for [p] leaves in [results]. *)
Definition entryOf (p : string) (r : completion SendResult) : BulkEntry :=
  match r with
  | Returned result => Sent p result
  | Thrown e => NotSent p e
  end.

(** An entry for [p]: a success carrying the result of a send to [p], or
    a failure carrying an error. *)
Definition recorded (p : string) (e : BulkEntry) : Prop :=
  (∃ r, e = Sent p r ∧ phone r = p ∧ status r = "sent") ∨
  (∃ err, e = NotSent p err).

End BulkTrace.

(** ** The events a webhook may name *)

Module WebhookSpec.

(** The vocabulary, as the OpenAPI annotation of the route
    [POST /api/webhooks/register] gives it:
    [enum: [message, qr, ready, disconnected, authenticated]]. *)
Definition vocabulary : list string :=
  ["message"; "qr"; "ready"; "disconnected"; "authenticated"].

End WebhookSpec.

(** ** Sample collaborators for the examples *)

Module Samples.
Import WhatsAppService WebhookRoutes.

(** A client that refuses one chat id and accepts the others; the state
    counts the identifiers drawn. *)
Definition refusing (bad : string) (c : nat) (chatId message : string)
    : nat * (string + string) :=
  if bool_decide (chatId = bad) then (c, inr "No LID for user")
  else (c, inl ("true_" +:+ chatId +:+ "_3EB0")).
Definition countingUuid (c : nat) : nat * string :=
  (S c, "uuid-" +:+ pretty c).
Definition countingClock (c : nat) : Z := (1000 + Z.of_nat c)%Z.
Definition idle (ms : Z) (sv : @Service nat) : @Service nat := sv.

(** Stand-ins for the library functions of the webhook routes. *)
Definition prefixedByHttp (u : string) : bool :=
  String.prefix "http://" u || String.prefix "https://" u.
Definition showPayload (p : Payload) : string :=
  "{event:" +:+ p_event p +:+ ",timestamp:" +:+ pretty (p_timestamp p) +:+ "}".
Definition keyedDigest (k m : string) : string := "mac(" +:+ k +:+ "," +:+ m +:+ ")".

Definition unreachable (rq : Request) : Z + string :=
  inr "connect ECONNREFUSED".

(** The hub before any registration, at instant 1700000000000. *)
Definition emptyHub : Hub := mkHub (mkNet 1700000000000 ∅ [] [] [] []) ∅.

End Samples.

(** ** More vocabulary for the key service *)

Module KeyStoreMore.
Import ApiKeyService KeyStore.

(** Ids are pairwise distinct in a store. *)
Definition uniqueIds (data : list ApiKeyRecord) : Prop :=
  NoDup (id <$> data).

(** The identifiers of a sequence of calls are fresh: every id that
    [createApiKey] draws is the id of no record of the store at that
    moment. *)
Fixpoint freshUuids (env : Env) (data : list ApiKeyRecord)
    (calls : list (call * Z)) : Prop :=
  match calls with
  | [] => True
  | c :: rest =>
      match c.1 with
      | Create _ uuid _ => uuid ∉ id <$> data
      | _ => True
      end ∧ freshUuids env (exec env data c) rest
  end.

(** The fields that [revokeApiKey], [activateApiKey] and
    [regenerateApiKey] all leave alone. *)
Definition sameDescription (k k' : ApiKeyRecord) : Prop :=
  id k' = id k ∧ name k' = name k ∧ description k' = description k ∧
  permissions k' = permissions k ∧ createdAt k' = createdAt k ∧
  expiresAt k' = expiresAt k ∧ lastUsedAt k' = lastUsedAt k ∧
  usageCount k' = usageCount k ∧ updatedAt k' = updatedAt k.

(** The value of a hexadecimal digit: the number below 16 that
    [hexDigit] writes as this digit. *)
Definition hexValue (c : ascii) : option N :=
  List.find (λ n, bool_decide (hexDigit n = c)) (N.of_nat <$> seq 0 16).

(** The bytes a string of hexadecimal digits stands for. *)
Fixpoint fromHex (s : string) : option (list Byte.byte) :=
  match s with
  | EmptyString => Some []
  | String _ EmptyString => None
  | String a (String b rest) =>
      match hexValue a, hexValue b, fromHex rest with
      | Some x, Some y, Some bytes =>
          (λ v, v :: bytes) <$> Byte.of_N (16 * x + y)
      | _, _, _ => None
      end
  end.

(** A request body that names no property. *)
Definition noUpdates : Updates :=
  mkUpdates None None None None None None None None None None.

End KeyStoreMore.

(** ** Runs of the session *)

Module SessionRuns.
Import Session.

(** What happens to the session: the service is initialized, the client
    raises an event, or [logout] or [destroy] is called (its call to the
    client resolving or not). *)
Inductive step :=
  | Initialize
  | Client (ev : ClientEvent)
  | Logout (resolved : bool)
  | Destroy (resolved : bool).

Definition apply (s : State) (st : step) : State :=
  match st with
  | Initialize => initialize s
  | Client ev => onClient ev s
  | Logout resolved => logout resolved s
  | Destroy resolved => destroy resolved s
  end.

(** The state after a sequence of steps on the constructed service. *)
Definition run (steps : list step) : State := foldl apply constructed steps.

(** A step that is not the client's [ready] event. *)
Definition notReady (st : step) : Prop := st ≠ Client Ready.

End SessionRuns.

(** ** Time passing on the hub *)

Module HubClock.
Import WebhookRoutes.

(** The process when the clock shows [t]. *)
Definition netAt (t : Z) (n : Net) : Net :=
  mkNet t (webhooks n) (pending n) (inflight n) (outbox n) (logged n).

(** The hub when the clock shows [t]. *)
Definition at_ (t : Z) (hub : Hub) : Hub :=
  mkHub (netAt t (net hub)) (eventHandlers hub).

(** The waiting deliveries go on one after the other, the oldest first,
    at the instants [ts]. *)
Definition resumeAll (stringify : Payload → string)
    (hmacSha256Hex : string → string → string) (ts : list Z) (n : Net) : Net :=
  foldl (λ n t, resume stringify hmacSha256Hex 0 (netAt t n)) n ts.

(** The requests under way end one after the other, the oldest first. *)
Definition settleAll (fetch : Request → Z + string) (count : nat) (n : Net)
    : Net :=
  Nat.iter count (settle fetch 0) n.

End HubClock.

(** ** More sample collaborators *)

Module MoreSamples.
Import WhatsAppService.

(** A length measure for the examples: the number of bytes. *)
Definition byteLength (s : string) (lo hi : nat) : bool :=
  (lo <=? String.length s)%nat && (String.length s <=? hi)%nat.

(** A client that knows the numbers ending in 7 and fails on the chat id
    of an empty number. *)
Definition lookup (c : nat) (chatId : string) : nat * (bool + string) :=
  if bool_decide (chatId = "@c.us") then (S c, inr "invalid wid")
  else (S c, inl (String.prefix "7" (String.substring
                    (String.length chatId - 6) 1 chatId))).

End MoreSamples.
(** * Properties *)

(** ** The key store and the authentication middleware *)

Module KeyFacts.
Import ApiKeyService Auth KeyStore.

(** *** Lists *)

Lemma elem_of_alter_inv {A} (f : A → A) i (l : list A) x :
  x ∈ alter f i l → x ∈ l ∨ ∃ y, l !! i = Some y ∧ x = f y.
Proof.
  intros [j Hj]%list_elem_of_lookup.
  destruct (decide (i = j)) as [->|Hne].
  - rewrite list_lookup_alter_eq in Hj.
    destruct (l !! j) as [y|] eqn:E; simplify_eq/=. right; eauto.
  - rewrite list_lookup_alter_ne in Hj by done.
    left. by eapply list_elem_of_lookup_2.
Qed.

Lemma elem_of_insert_inv {A} i (l : list A) x y :
  x ∈ <[i := y]> l → x ∈ l ∨ x = y.
Proof.
  rewrite list_insert_alter. intros [?|(?&?&?)]%elem_of_alter_inv; auto.
Qed.

(** A search that an in-place change does not affect finds the same
    place. *)
Lemma list_find_alter_same {A} (P : A → Prop) `{∀ x, Decision (P x)}
    (f : A → A) (l : list A) j x :
  (∀ y, P (f y) ↔ P y) →
  list_find P l = Some (j, x) →
  list_find P (alter f j l) = Some (j, f x).
Proof.
  intros Hf (Hj & HP & Hmin)%list_find_Some.
  apply list_find_Some. split_and!.
  - by rewrite list_lookup_alter_eq, Hj.
  - by apply Hf.
  - intros j' y Hj' Hlt.
    rewrite list_lookup_alter_ne in Hj' by lia. eauto.
Qed.

(** *** Searches of the store *)

Lemma uniqueSecrets_index data i1 i2 k1 k2 :
  uniqueSecrets data → data !! i1 = Some k1 → data !! i2 = Some k2 →
  key k1 = key k2 → i1 = i2.
Proof.
  intros Hnd H1 H2 Heq.
  eapply NoDup_lookup; [exact Hnd | |].
  - rewrite list_lookup_fmap, H1. reflexivity.
  - rewrite list_lookup_fmap, H2. simpl. by rewrite Heq.
Qed.

Lemma uniqueSecrets_eq data k1 k2 :
  uniqueSecrets data → k1 ∈ data → k2 ∈ data → key k1 = key k2 → k1 = k2.
Proof.
  intros Hnd [i1 H1]%list_elem_of_lookup [i2 H2]%list_elem_of_lookup Heq.
  assert (i1 = i2) as -> by (eapply uniqueSecrets_index; eauto).
  congruence.
Qed.

(** What [find(k => k.key === apiKey && k.active)] returns is a record of
    the store with that secret, and active. *)
Lemma find_active_spec data apiKey i k :
  list_find (λ k, key k = apiKey ∧ active k = true) data = Some (i, k) →
  data !! i = Some k ∧ key k = apiKey ∧ active k = true.
Proof. intros (?&[??]&_)%list_find_Some. auto. Qed.

(** [findIndexById] returns the place of a record that has the id. *)
Lemma findIndexById_Some i data j :
  findIndexById i data = Some j → ∃ k, data !! j = Some k ∧ id k = i.
Proof.
  unfold findIndexById.
  destruct (list_find _ data) as [[j' k]|] eqn:Hfind; [|done].
  intros [= <-]. apply list_find_Some in Hfind as (?&?&_). eauto.
Qed.

(** In a store with distinct secrets, [validateApiKey] on the secret of a
    record is decided by that record alone. *)
Lemma validate_unique env now data j k :
  matchesMaster env (key k) = false →
  uniqueSecrets data → data !! j = Some k →
  validateApiKey env now data (key k) =
    if active k && negb (isExpired now k)
    then (Some (StoredInfo (recordUse now k)), <[j := recordUse now k]> data)
    else (None, data).
Proof.
  intros Hm Hu Hj. unfold validateApiKey. rewrite Hm.
  destruct (list_find _ data) as [[i k0]|] eqn:Hfind.
  - apply find_active_spec in Hfind as (Hi & Hk & Ha).
    assert (i = j) as -> by (eapply uniqueSecrets_index; eauto).
    assert (k0 = k) as -> by congruence.
    rewrite Ha. simpl. by destruct (isExpired now k).
  - destruct (active k) eqn:Ha; [|done].
    apply list_find_None in Hfind.
    eapply Forall_lookup_1 in Hfind; [|exact Hj].
    by destruct Hfind.
Qed.

Lemma validate_unknown env now data apiKey :
  matchesMaster env apiKey = false →
  unknownSecret data apiKey →
  validateApiKey env now data apiKey = (None, data).
Proof.
  intros Hm Hun. unfold validateApiKey. rewrite Hm.
  destruct (list_find _ data) as [[i k0]|] eqn:Hfind; [|done].
  apply find_active_spec in Hfind as (Hi & Hk & Ha).
  destruct (Hun k0); [by eapply list_elem_of_lookup_2 | done].
Qed.

Lemma validate_unacceptable env now data apiKey :
  matchesMaster env apiKey = false →
  uniqueSecrets data →
  unknownSecret data apiKey ∨ inactiveSecret data apiKey
    ∨ expiredSecret now data apiKey →
  validateApiKey env now data apiKey = (None, data).
Proof.
  intros Hm Hu [Hun | [(k & Hin & <- & Ha) | (k & t & Hin & <- & He & Hlt)]].
  - by apply validate_unknown.
  - apply list_elem_of_lookup in Hin as [j Hj].
    rewrite (validate_unique env now data j k) by done. by rewrite Ha.
  - apply list_elem_of_lookup in Hin as [j Hj].
    rewrite (validate_unique env now data j k) by done.
    unfold isExpired. rewrite He, bool_decide_eq_true_2 by done.
    by rewrite andb_false_r.
Qed.

(** C1. Whether a credential other than the master key is unknown, is the
    secret of a revoked record or is the secret of an expired record (in
    stores whose secrets are pairwise distinct), [validateApiKey] returns
    the same [null] and writes nothing, and the middleware answers alike
    in the three situations: whatever two stores and instants, if the
    credential is in one of the situations in each, the outcomes of
    [apiKeyAuth] are equal, and they are the 403 INVALID_API_KEY answer
    when the development mode is off and the header is not empty. *)
Theorem C1_invalid_credential_uniform env apiKey now1 data1 now2 data2 :
  matchesMaster env apiKey = false →
  uniqueSecrets data1 → uniqueSecrets data2 →
  unknownSecret data1 apiKey ∨ inactiveSecret data1 apiKey
    ∨ expiredSecret now1 data1 apiKey →
  unknownSecret data2 apiKey ∨ inactiveSecret data2 apiKey
    ∨ expiredSecret now2 data2 apiKey →
  validateApiKey env now1 data1 apiKey = (None, data1) ∧
  validateApiKey env now2 data2 apiKey = (None, data2) ∧
  (apiKeyAuth env now1 data1 (Some apiKey)).1
    = (apiKeyAuth env now2 data2 (Some apiKey)).1 ∧
  (developmentMode env = false → apiKey ≠ "" →
   apiKeyAuth env now1 data1 (Some apiKey) = (Respond INVALID_API_KEY, data1)).
Proof.
  intros Hm Hu1 Hu2 H1 H2.
  pose proof (validate_unacceptable env now1 data1 apiKey Hm Hu1 H1) as E1.
  pose proof (validate_unacceptable env now2 data2 apiKey Hm Hu2 H2) as E2.
  split_and!; [done | done | |].
  - unfold apiKeyAuth. rewrite E1, E2.
    destruct (developmentMode env); [done|]. by case_bool_decide.
  - intros Hdev Hne. unfold apiKeyAuth. rewrite Hdev, E1.
    by rewrite bool_decide_eq_false_2.
Qed.

(** *** Updates *)

Lemma applyUpdates_protected updates now k :
  sameProtectedFields k (applyUpdates updates now k).
Proof.
  unfold applyUpdates, allowedUpdates. simpl.
  destruct updates as [? ? [?|] [?|] [?|] ? ? [?|] ? ?]; simpl;
    repeat split.
Qed.

Lemma sameProtectedFields_refl (data : list ApiKeyRecord) :
  Forall2 sameProtectedFields data data.
Proof. apply Forall_Forall2_diag, Forall_forall. intros; repeat split. Qed.

(** C7. [updateApiKey], whatever the id and whatever properties the
    updates object carries (an [id], a [key], an [active] flag, a
    [usageCount], ... included), leaves the store with the same number of
    records, each at its place with the same id, secret, active flag,
    usage count, creation and last-use instants (and revocation and
    regeneration instants); a record with another id is left as it was;
    the record it returns is of that kind too. *)
Theorem C7_update_frame i updates now data :
  Forall2 sameProtectedFields data (updateApiKey i updates now data).2 ∧
  (∀ j k, data !! j = Some k → id k ≠ i →
     (updateApiKey i updates now data).2 !! j = Some k) ∧
  (∀ k', (updateApiKey i updates now data).1 = Success k' →
     ∃ k, k ∈ data ∧ id k = i ∧ sameProtectedFields k k').
Proof.
  unfold updateApiKey.
  destruct (list_find _ data) as [[j k]|] eqn:Hfind; simpl.
  - apply list_find_Some in Hfind as (Hj & Hid & _). split_and!.
    + rewrite <- (list_insert_id data j k Hj) at 1.
      apply Forall2_insert; [|apply applyUpdates_protected].
      apply sameProtectedFields_refl.
    + intros j2 k2 Hj2 Hne. rewrite list_lookup_insert_ne; [done|].
      intros <-. congruence.
    + intros k' [= <-]. exists k. split_and!; [|done|].
      * eapply list_elem_of_lookup_2; eauto.
      * apply applyUpdates_protected.
  - split_and!; [|done|intros ? [=]]. apply sameProtectedFields_refl.
Qed.

Lemma C7_update_frame_witness :
  (updateApiKey "id-2"
     (mkUpdates (Some "id-9") (Some "wapi_chosen") (Some "renamed") None None
        (Some false) None None None (Some 41%Z))
     500 expiringStore).2
  = [{| id := "id-2"; key := generateKey sampleBytes; name := "renamed";
        description := ""; permissions := ["*"]; active := true;
        createdAt := 100; expiresAt := ExpiresAt 150; lastUsedAt := None;
        usageCount := 0; revokedAt := None; updatedAt := Some 500%Z;
        regeneratedAt := None |}] ∧
  (updateApiKey "id-7" (mkUpdates None None (Some "renamed") None None None
                          None None None None) 500 expiringStore).2 !! 0
  = expiringStore !! 0.
Proof.
  split; [reflexivity|].
  destruct (C7_update_frame "id-7"
              (mkUpdates None None (Some "renamed") None None None None None
                 None None) 500 expiringStore) as (_ & Hother & _).
  apply (Hother 0); [reflexivity | discriminate].
Defined.

(** *** Creation *)

(** The secret of the last record of a store, held by no other record,
    is accepted when the record is active and not expired, and the use
    is recorded on that record. *)
Lemma validate_last env t data k :
  key k ∉ key <$> data → active k = true → isExpired t k = false →
  matchesMaster env (key k) = false →
  validateApiKey env t (data ++ [k]) (key k)
  = (Some (StoredInfo (recordUse t k)), data ++ [recordUse t k]).
Proof.
  intros Hfresh Hact He Hm. unfold validateApiKey. rewrite Hm.
  assert (list_find (λ k', key k' = key k ∧ active k' = true) (data ++ [k])
          = Some (length data, k)) as ->.
  { apply list_find_Some. split; [|split].
    - rewrite lookup_app_r by done. by rewrite Nat.sub_diag.
    - done.
    - intros j y Hj Hlt HP. destruct HP as [Hkey _].
      rewrite lookup_app_l in Hj by done.
      apply Hfresh. rewrite <- Hkey.
      eapply list_elem_of_fmap_2, list_elem_of_lookup_2, Hj. }
  rewrite He. f_equal.
  rewrite insert_app_r_alt by done. by rewrite Nat.sub_diag.
Qed.

Lemma apiKeyAuth_last env t data k :
  key k ∉ key <$> data → key k ≠ "" → active k = true →
  isExpired t k = false →
  developmentMode env = false → matchesMaster env (key k) = false →
  apiKeyAuth env t (data ++ [k]) (Some (key k))
  = (Next (Some (StoredInfo (recordUse t k))), data ++ [recordUse t k]).
Proof.
  intros Hfresh Hne Hact He Hdev Hm. unfold apiKeyAuth.
  rewrite Hdev, bool_decide_eq_false_2 by done.
  by rewrite validate_last.
Qed.

(** The store after requests that carry the secret of its last record,
    made at the instants [ts]. *)
Lemma uses_recorded env data k ts :
  key k ∉ key <$> data → key k ≠ "" → active k = true →
  developmentMode env = false → matchesMaster env (key k) = false →
  Forall (λ t, isExpired t k = false) ts →
  foldl (λ d t, (apiKeyAuth env t d (Some (key k))).2) (data ++ [k]) ts
  = data ++ [foldl (λ k' t, recordUse t k') k ts].
Proof.
  intros Hfresh Hne Hact Hdev Hm Hts. revert k Hfresh Hne Hact Hm Hts.
  induction ts as [|t ts IH]; intros k Hfresh Hne Hact Hm Hts; [done|].
  apply Forall_cons in Hts as [Ht Hts]. simpl.
  rewrite apiKeyAuth_last by done. simpl.
  apply (IH (recordUse t k)); done.
Qed.

Lemma uses_keep k ts :
  let used := foldl (λ k' t, recordUse t k') k ts in
  key used = key k ∧ active used = active k ∧
  permissions used = permissions k ∧ expiresAt used = expiresAt k.
Proof.
  revert k. induction ts as [|t ts IH]; intros k; [done|].
  simpl. by destruct (IH (recordUse t k)) as (-> & -> & -> & ->).
Qed.

(** C10. A key created without [permissions] is stored, as the last
    record of the store, with the permissions [['*']], and it passes
    every permission check: whatever the requests already made with it,
    the next request that carries its secret (a fresh one, not the
    master key, outside development mode, the key not expired) passes
    [apiKeyAuth] as this record, its use recorded in the store, and then
    [requirePermission] whatever is required. A key created without
    [name] is stored as 'API Key', one created without [description]
    with the empty description; [createApiKey()] gives the three
    defaults at once. *)
Theorem C10_create_defaults env uuid randomBytes now data :
  generateKey randomBytes ∉ key <$> data →
  developmentMode env = false →
  matchesMaster env (generateKey randomBytes) = false →
  (∀ n d e,
     let r := createApiKey (mkOptions n d e None) uuid randomBytes now data in
     let k := r.1 in
     r.2 = data ++ [k] ∧ permissions k = ["*"] ∧
     ∀ ts t req,
       Forall (λ t, isExpired t k = false) (ts ++ [t]) →
       let used := foldl (λ k' t, recordUse t k') k ts in
       foldl (λ d t, (apiKeyAuth env t d (Some (key k))).2) r.2 ts
         = data ++ [used] ∧
       apiKeyAuth env t (data ++ [used]) (Some (key k))
         = (Next (Some (StoredInfo (recordUse t used))),
            data ++ [recordUse t used]) ∧
       requirePermission req (Some (StoredInfo (recordUse t used)))
         = Next (Some (StoredInfo (recordUse t used)))) ∧
  (∀ d e p,
     let r := createApiKey (mkOptions None d e p) uuid randomBytes now data in
     name r.1 = "API Key" ∧ r.2 = data ++ [r.1]) ∧
  (∀ n e p,
     let r := createApiKey (mkOptions n None e p) uuid randomBytes now data in
     description r.1 = "" ∧ r.2 = data ++ [r.1]) ∧
  (let r := createApiKey noOptions uuid randomBytes now data in
   let k := r.1 in
   r.2 = data ++ [k] ∧
   name k = "API Key" ∧ description k = "" ∧ permissions k = ["*"] ∧
   active k = true ∧ usageCount k = 0%Z ∧ expiresAt k = NoExpiry).
Proof.
  intros Hfresh Hdev Hm. split; [|repeat split].
  intros n d e r k. split; [done|]. split; [done|].
  intros ts t req Hts used.
  apply Forall_app in Hts as [Hts Ht]. rewrite Forall_singleton in Ht.
  assert (key k = generateKey randomBytes) as Hk by done.
  assert (key k ≠ "") as Hne by (rewrite Hk; discriminate).
  destruct (uses_keep k ts) as (Hukey & Huact & Huperm & Huexp).
  fold used in Hukey, Huact, Huperm, Huexp.
  split; [|split].
  - fold k. change r.2 with (data ++ [k]).
    apply uses_recorded; rewrite ?Hk; done.
  - rewrite <- Hukey. apply apiKeyAuth_last; rewrite ?Hukey, ?Hk; try done.
    unfold isExpired in Ht |- *. by rewrite Huexp.
  - unfold requirePermission.
    assert (infoPermissions (StoredInfo (recordUse t used)) = ["*"]) as ->.
    { change (permissions used = ["*"]). by rewrite Huperm. }
    assert (includes "*" ["*"] = true) as ->.
    { unfold includes. apply bool_decide_eq_true_2, elem_of_cons. by left. }
    by rewrite orb_true_r.
Qed.

Lemma C10_create_defaults_witness :
  let k := (createApiKey (mkOptions (Some "ci") None None None) "id-3"
              otherBytes 100 expiringStore).1 in
  apiKeyAuth sampleEnv 130 (expiringStore ++ [recordUse 120 k]) (Some (key k))
    = (Next (Some (StoredInfo (recordUse 130 (recordUse 120 k)))),
       expiringStore ++ [recordUse 130 (recordUse 120 k)]) ∧
  requirePermission (One "messages:send")
    (Some (StoredInfo (recordUse 130 (recordUse 120 k))))
    = Next (Some (StoredInfo (recordUse 130 (recordUse 120 k)))).
Proof.
  intros k.
  destruct (C10_create_defaults sampleEnv "id-3" otherBytes 100 expiringStore)
    as [H _].
  - vm_compute. apply not_elem_of_cons.
    split; [discriminate | apply not_elem_of_nil].
  - reflexivity.
  - reflexivity.
  - destruct (H (Some "ci") None None) as (_ & _ & Hpass).
    destruct (Hpass [120%Z] 130%Z (One "messages:send")) as (_ & Hauth & Hperm).
    + repeat constructor.
    + split; [exact Hauth | exact Hperm].
Defined.

(** *** Runs of the service *)

Lemma recordUse_fields now k :
  id (recordUse now k) = id k ∧ active (recordUse now k) = active k ∧
  revokedAt (recordUse now k) = revokedAt k.
Proof. done. Qed.

(** A record that is inactive after a call was inactive before it, with
    the same id and revocation instant, or the call revoked it. *)
Lemma exec_inactive env data c k' :
  k' ∈ exec env data c → active k' = false →
  (∃ k, k ∈ data ∧ active k = false ∧ id k = id k'
        ∧ revokedAt k = revokedAt k')
  ∨ (c.1 = Revoke (id k') ∧ revokedAt k' = Some c.2).
Proof.
  destruct c as [[options uuid rb | apiKey | i updates | i | i | i | i rb] now];
    unfold exec; simpl; intros Hin Hoff.
  - apply elem_of_app in Hin as [Hin | ->%list_elem_of_singleton]; [|done].
    left. by exists k'.
  - unfold validateApiKey in Hin.
    destruct (matchesMaster env apiKey); [left; by exists k'|].
    destruct (list_find _ data) as [[j k0]|] eqn:Hfind; [|left; by exists k'].
    destruct (isExpired now k0); [left; by exists k'|].
    apply find_active_spec in Hfind as (Hj & _ & _).
    apply elem_of_insert_inv in Hin as [Hin | ->]; left; [by exists k'|].
    exists k0. split; [by eapply list_elem_of_lookup_2|]. done.
  - unfold updateApiKey in Hin.
    destruct (list_find _ data) as [[j k0]|] eqn:Hfind; [|left; by exists k'].
    apply list_find_Some in Hfind as (Hj & _ & _).
    apply elem_of_insert_inv in Hin as [Hin | ->]; left; [by exists k'|].
    exists k0. split; [by eapply list_elem_of_lookup_2|].
    destruct (applyUpdates_protected updates now k0)
      as (? & ? & Ha & ? & ? & ? & ? & ?).
    rewrite Ha in Hoff. done.
  - unfold revokeApiKey in Hin.
    destruct (findIndexById i data) as [j|] eqn:Hfind; [|left; by exists k'].
    apply findIndexById_Some in Hfind as (k0 & Hj & Hid).
    apply elem_of_alter_inv in Hin as [Hin | (y & Hy & ->)];
      [left; by exists k'|].
    right. simpl. split; [|done]. congruence.
  - unfold activateApiKey in Hin.
    destruct (findIndexById i data) as [j|] eqn:Hfind; [|left; by exists k'].
    apply elem_of_alter_inv in Hin as [Hin | (y & Hy & ->)];
      [left; by exists k'|done].
  - unfold deleteApiKey in Hin.
    destruct (findIndexById i data) as [j|] eqn:Hfind; [|left; by exists k'].
    apply list_elem_of_delete_inv in Hin. left; by exists k'.
  - unfold regenerateApiKey in Hin.
    destruct (findIndexById i data) as [j|] eqn:Hfind; [|left; by exists k'].
    apply elem_of_alter_inv in Hin as [Hin | (y & Hy & ->)];
      [left; by exists k'|].
    left. exists y. split; [by eapply list_elem_of_lookup_2|]. done.
Qed.

Lemma run_snoc env calls c :
  run env (calls ++ [c]) = exec env (run env calls) c.
Proof. unfold run. by rewrite foldl_app. Qed.

(** Every inactive record of a reachable store carries the instant of a
    [Revoke] call on its id. *)
Lemma run_inactive env calls k :
  k ∈ run env calls → active k = false →
  ∃ t, (Revoke (id k), t) ∈ calls ∧ revokedAt k = Some t.
Proof.
  revert k. induction calls as [|c calls IH] using rev_ind; intros k Hin Hoff.
  - by apply elem_of_nil in Hin.
  - rewrite run_snoc in Hin.
    destruct (exec_inactive _ _ _ _ Hin Hoff)
      as [(k0 & Hin0 & Hoff0 & Hid & Hrev) | [Hc Hrev]].
    + destruct (IH k0 Hin0 Hoff0) as (t & Ht & Hrt).
      exists t. split; [|congruence].
      apply elem_of_app. left. by rewrite <- Hid.
    + exists c.2. split; [|done].
      apply elem_of_app. right. apply list_elem_of_singleton.
      destruct c as [op now]. simpl in *. by subst.
Qed.

(** [validateApiKey] never writes an [active] flag. *)
Lemma validate_keeps_active env now data apiKey :
  active <$> (validateApiKey env now data apiKey).2 = active <$> data.
Proof.
  unfold validateApiKey.
  destruct (matchesMaster env apiKey); [done|].
  destruct (list_find _ data) as [[j k0]|] eqn:Hfind; [|done].
  destruct (isExpired now k0); [done|]. simpl.
  apply find_active_spec in Hfind as (Hj & _ & _).
  rewrite list_fmap_insert. apply list_insert_id.
  by rewrite list_lookup_fmap, Hj.
Qed.

(** C3. In the store any sequence of calls leaves: an inactive record
    carries the instant of a [Revoke] call made on its id;
    [validateApiKey] (where expiry is evaluated) leaves every [active]
    flag as it was; and on the secret of a record that is active and
    expired (secrets being distinct, and the secret not the master key)
    it returns [null] and writes nothing. *)
Theorem C3_inactive_only_by_revoke env calls :
  let data := run env calls in
  (∀ k, k ∈ data → active k = false →
     ∃ t, (Revoke (id k), t) ∈ calls ∧ revokedAt k = Some t) ∧
  (∀ now apiKey,
     active <$> (validateApiKey env now data apiKey).2 = active <$> data) ∧
  (∀ now k t,
     uniqueSecrets data → k ∈ data → matchesMaster env (key k) = false →
     active k = true → expiresAt k = ExpiresAt t → (t < now)%Z →
     validateApiKey env now data (key k) = (None, data)).
Proof.
  intros data. split_and!.
  - intros k. apply run_inactive.
  - intros. apply validate_keeps_active.
  - intros now k t Hu Hin Hm Ha He Hlt.
    apply validate_unacceptable; [done..|].
    right; right. by exists k, t.
Qed.

(** *** Regeneration and listing *)

Lemma length_append (a b : string) :
  String.length (a +:+ b) = String.length a + String.length b.
Proof. induction a as [|c a IH]; simpl; [done|]. by rewrite IH. Qed.

Lemma length_toHex bytes : String.length (toHex bytes) = 2 * length bytes.
Proof. induction bytes as [|b bytes IH]; simpl; [done|]. rewrite IH. lia. Qed.

Lemma length_generateKey bytes :
  String.length (generateKey bytes) = 5 + 2 * length bytes.
Proof. unfold generateKey. by rewrite length_append, length_toHex. Qed.

Lemma length_substring0 n s : (String.length (substring0 n s) ≤ n)%nat.
Proof.
  revert s. induction n as [|n IH]; intros [|c s]; simpl; try lia.
  specialize (IH s). lia.
Qed.

Lemma length_substring n m s :
  (String.length (String.substring n m s) ≤ m)%nat.
Proof.
  revert n m. induction s as [|c s IH]; intros [|n] [|m]; simpl; try lia.
  - specialize (IH 0 m). lia.
  - apply IH.
  - apply IH.
Qed.

Lemma length_maskKey s : (String.length (maskKey s) ≤ 19)%nat.
Proof.
  unfold maskKey, sliceLast. rewrite !length_append.
  change (String.length "...") with 3.
  pose proof (length_substring0 12 s).
  pose proof (length_substring (String.length s - 4) 4 s). lia.
Qed.

Lemma uniqueSecrets_alter_fresh data j k f s' :
  uniqueSecrets data → data !! j = Some k → key (f k) = s' →
  s' ∉ key <$> data → uniqueSecrets (alter f j data).
Proof.
  intros Hu Hj Hs Hfresh. apply NoDup_alt. intros i1 i2 x H1 H2.
  rewrite list_lookup_fmap in H1, H2.
  assert (∀ i r, i ≠ j → data !! i = Some r → key r ≠ s') as Hother.
  { intros i r _ Hi Heq. apply Hfresh.
    apply list_elem_of_lookup. exists i.
    by rewrite list_lookup_fmap, Hi, <- Heq. }
  destruct (decide (i1 = j)) as [->|N1], (decide (i2 = j)) as [->|N2];
    [done | | |].
  - rewrite list_lookup_alter_eq, Hj in H1.
    rewrite list_lookup_alter_ne in H2 by done.
    destruct (data !! i2) as [r|] eqn:E; simplify_eq/=.
    by destruct (Hother i2 r N2 E).
  - rewrite list_lookup_alter_eq, Hj in H2.
    rewrite list_lookup_alter_ne in H1 by done.
    destruct (data !! i1) as [r|] eqn:E; simplify_eq/=.
    by destruct (Hother i1 r N1 E).
  - rewrite list_lookup_alter_ne in H1, H2 by done.
    destruct (data !! i1) as [r1|] eqn:E1, (data !! i2) as [r2|] eqn:E2;
      simplify_eq/=.
    eapply uniqueSecrets_index; eauto.
Qed.

(** *** Distinct secrets, as long as the draws are fresh *)

Lemma keys_alter (f : ApiKeyRecord → ApiKeyRecord) (j : nat)
    (data : list ApiKeyRecord) :
  (∀ k, key (f k) = key k) → key <$> alter f j data = key <$> data.
Proof.
  intros Hf. rewrite (list_fmap_alter key f (λ x, x))
    by (apply Forall_forall; auto).
  by apply list_alter_id.
Qed.

Lemma keys_insert (j : nat) k k' (data : list ApiKeyRecord) :
  data !! j = Some k → key k' = key k →
  key <$> <[j := k']> data = key <$> data.
Proof.
  intros Hj Hk. rewrite list_fmap_insert. apply list_insert_id.
  by rewrite list_lookup_fmap, Hj, Hk.
Qed.

Lemma exec_uniqueSecrets env data c :
  uniqueSecrets data →
  match c.1 with
  | Create _ _ randomBytes | Regenerate _ randomBytes =>
      generateKey randomBytes ∉ key <$> data
  | _ => True
  end →
  uniqueSecrets (exec env data c).
Proof.
  unfold uniqueSecrets.
  destruct c as [[options uuid rb | apiKey | i updates | i | i | i | i rb] now];
    unfold exec; simpl; intros Hu Hfresh.
  - rewrite fmap_app. apply NoDup_app. split_and!; [done | | apply NoDup_singleton].
    intros s Hs ->%list_elem_of_singleton. done.
  - unfold validateApiKey.
    destruct (matchesMaster env apiKey); [done|].
    destruct (list_find _ data) as [[j k0]|] eqn:Hfind; [|done].
    destruct (isExpired now k0); [done|]. simpl.
    apply find_active_spec in Hfind as (Hj & _ & _).
    by rewrite (keys_insert j k0).
  - unfold updateApiKey.
    destruct (list_find _ data) as [[j k0]|] eqn:Hfind; [|done]. simpl.
    apply list_find_Some in Hfind as (Hj & _ & _).
    rewrite (keys_insert j k0); [done..|].
    by destruct (applyUpdates_protected updates now k0) as (_ & ? & _).
  - unfold revokeApiKey.
    destruct (findIndexById i data) as [j|]; [|done]. simpl.
    by rewrite keys_alter.
  - unfold activateApiKey.
    destruct (findIndexById i data) as [j|]; [|done]. simpl.
    by rewrite keys_alter.
  - unfold deleteApiKey.
    destruct (findIndexById i data) as [j|]; [|done]. simpl.
    rewrite list_fmap_delete.
    eapply sublist_NoDup; [done | apply sublist_delete].
  - unfold regenerateApiKey.
    destruct (findIndexById i data) as [j|] eqn:Hfind; [|done]. simpl.
    apply findIndexById_Some in Hfind as (k0 & Hj & _).
    by eapply uniqueSecrets_alter_fresh.
Qed.

(** The secrets of a store reached by calls with fresh draws are pairwise
    distinct. *)
Lemma run_uniqueSecrets env calls :
  freshDraws env [] calls → uniqueSecrets (run env calls).
Proof.
  unfold run. assert (uniqueSecrets []) as Hnil by constructor.
  revert Hnil. generalize (@nil ApiKeyRecord) as data.
  induction calls as [|c calls IH]; intros data Hu Hfresh; simpl; [done|].
  destruct Hfresh as [Hc Hrest].
  apply IH; [|done]. by apply exec_uniqueSecrets.
Qed.

Lemma listing_masks data :
  v_key <$> listApiKeys false data = (λ k, maskKey (key k)) <$> data.
Proof. unfold listApiKeys. by rewrite <- list_fmap_compose. Qed.

(** C2, as the code has it. Let [k] be the record [getApiKeyById i] finds
    in a store with distinct secrets, and let the regenerated secret [s']
    be fresh (no record holds it) and, like the old one, not the master
    key. Then [regenerateApiKey i] returns [s']; afterwards the old
    secret is refused at every instant; the new secret is accepted
    exactly at the instants at which the record is active and not
    expired (regenerating neither activates nor renews it); the record
    found under [i] is [k] with the new secret, and no id has changed;
    the listing shows each secret as its first 12 characters, '...' and
    its last 4, which for a secret drawn from 24 bytes is not the
    secret; the store itself holds the new secret in full. *)
Theorem C2_regenerate env i k randomBytes now data :
  let s' := generateKey randomBytes in
  let k' := set_regeneratedAt (Some now) (set_key s' k) in
  let data' := (regenerateApiKey i randomBytes now data).2 in
  getApiKeyById i data = Some k →
  uniqueSecrets data →
  s' ∉ key <$> data →
  matchesMaster env (key k) = false →
  matchesMaster env s' = false →
  (regenerateApiKey i randomBytes now data).1 = Success s' ∧
  (∀ t, validateApiKey env t data' (key k) = (None, data')) ∧
  (∀ t, (validateApiKey env t data' s').1 =
          if active k && negb (isExpired t k)
          then Some (StoredInfo (recordUse t k')) else None) ∧
  getApiKeyById i data' = Some k' ∧
  id <$> data' = id <$> data ∧
  v_key <$> listApiKeys false data' = (λ r, maskKey (key r)) <$> data' ∧
  (length randomBytes = 24 → maskKey s' ≠ s') ∧
  s' ∈ key <$> data'.
Proof.
  intros s' k' data' Hget Hu Hfresh Hm Hm'.
  unfold getApiKeyById in Hget.
  destruct (list_find (λ r, id r = i) data) as [[j k0]|] eqn:Hfind;
    [|done].
  simpl in Hget. injection Hget as ->.
  pose proof Hfind as (Hj & Hid & _)%list_find_Some.
  assert (Hreg : regenerateApiKey i randomBytes now data
                 = (Success s',
                    alter (λ r, set_regeneratedAt (Some now) (set_key s' r))
                      j data)).
  { unfold regenerateApiKey, findIndexById. by rewrite Hfind. }
  subst data'. rewrite Hreg. simpl.
  set (f := λ r, set_regeneratedAt (Some now) (set_key s' r)).
  assert (Hj' : alter f j data !! j = Some k')
    by (by rewrite list_lookup_alter_eq, Hj).
  assert (Hu' : uniqueSecrets (alter f j data))
    by (by eapply uniqueSecrets_alter_fresh).
  assert (Hold : key k ∈ key <$> data).
  { apply list_elem_of_lookup. exists j. by rewrite list_lookup_fmap, Hj. }
  split_and!.
  - done.
  - intros t. apply validate_unknown; [done|].
    intros r [j2 Hr]%list_elem_of_lookup Heq.
    destruct (decide (j2 = j)) as [->|Hne].
    + rewrite Hj' in Hr. injection Hr as <-. apply Hfresh.
      change s' with (key k'). by rewrite Heq.
    + rewrite list_lookup_alter_ne in Hr by done.
      apply Hne. exact (uniqueSecrets_index data j2 j r k Hu Hr Hj Heq).
  - intros t.
    pose proof (validate_unique env t (alter f j data) j k' Hm' Hu' Hj') as E.
    change (key k') with s' in E. rewrite E.
    change (active k') with (active k).
    change (isExpired t k') with (isExpired t k).
    by destruct (active k && negb (isExpired t k)).
  - unfold getApiKeyById.
    by rewrite (list_find_alter_same (λ r, id r = i) f data j k).
  - rewrite (list_fmap_alter id f (λ x, x))
      by (apply Forall_forall; done).
    by apply list_alter_id.
  - apply listing_masks.
  - intros Hlen Heq.
    pose proof (length_maskKey s').
    assert (String.length s' = 53) as Hs
      by (unfold s'; rewrite length_generateKey, Hlen; done).
    rewrite Heq, Hs in H. lia.
  - apply list_elem_of_lookup. exists j.
    by rewrite list_lookup_fmap, Hj'.
Qed.

(** *** Examples *)

(** C2, as stated, fails on a revoked record: regenerating it returns a
    new secret that [validateApiKey] refuses (the record stays revoked),
    and the new secret can be read from the store, which
    [listApiKeys(true)] and [getApiKeyById] return in full. *)
Lemma C2_counterexample :
  let s' := generateKey otherBytes in
  let data' := (regenerateApiKey "id-1" otherBytes 300 revokedStore).2 in
  (regenerateApiKey "id-1" otherBytes 300 revokedStore).1 = Success s' ∧
  validateApiKey sampleEnv 400 data' s' = (None, data') ∧
  key <$> data' = [s'] ∧
  v_key <$> listApiKeys true data' = [s'] ∧
  key <$> getApiKeyById "id-1" data' = Some s'.
Proof. vm_compute. done. Qed.

Lemma C2_regenerate_witness :
  let s' := generateKey otherBytes in
  let data' := (regenerateApiKey "id-2" otherBytes 120 expiringStore).2 in
  (regenerateApiKey "id-2" otherBytes 120 expiringStore).1 = Success s' ∧
  (validateApiKey sampleEnv 130 data' s').1 ≠ None ∧
  (validateApiKey sampleEnv 160 data' s').1 = None.
Proof.
  intros s' data'.
  destruct (C2_regenerate sampleEnv "id-2"
              {| id := "id-2"; key := generateKey sampleBytes; name := "t";
                 description := ""; permissions := ["*"]; active := true;
                 createdAt := 100; expiresAt := ExpiresAt 150;
                 lastUsedAt := None; usageCount := 0; revokedAt := None;
                 updatedAt := None; regeneratedAt := None |}
              otherBytes 120 expiringStore)
    as (H1 & _ & H3 & _).
  - reflexivity.
  - vm_compute. apply NoDup_singleton.
  - vm_compute. apply not_elem_of_cons.
    split; [discriminate | apply not_elem_of_nil].
  - reflexivity.
  - reflexivity.
  - split_and!; [exact H1 | |].
    + subst s' data'. rewrite (H3 130%Z). vm_compute. discriminate.
    + subst s' data'. rewrite (H3 160%Z). reflexivity.
Defined.

Lemma C1_invalid_credential_uniform_witness :
  validateApiKey sampleEnv 400 [] (generateKey sampleBytes) = (None, []) ∧
  validateApiKey sampleEnv 400 revokedStore (generateKey sampleBytes)
    = (None, revokedStore) ∧
  validateApiKey sampleEnv 400 expiringStore (generateKey sampleBytes)
    = (None, expiringStore) ∧
  (apiKeyAuth sampleEnv 400 revokedStore (Some (generateKey sampleBytes))).1
    = (apiKeyAuth sampleEnv 400 expiringStore
         (Some (generateKey sampleBytes))).1 ∧
  apiKeyAuth sampleEnv 400 [] (Some (generateKey sampleBytes))
    = (Respond INVALID_API_KEY, []).
Proof.
  assert (Hu1 : uniqueSecrets []) by constructor.
  assert (Hu2 : uniqueSecrets revokedStore)
    by (vm_compute; apply NoDup_singleton).
  assert (Hu3 : uniqueSecrets expiringStore)
    by (vm_compute; apply NoDup_singleton).
  assert (Hc1 : unknownSecret [] (generateKey sampleBytes))
    by (intros k Hk; by apply elem_of_nil in Hk).
  assert (Hc2 : inactiveSecret revokedStore (generateKey sampleBytes)).
  { eexists. split; [apply list_elem_of_here|]. split; reflexivity. }
  assert (Hc3 : expiredSecret 400 expiringStore (generateKey sampleBytes)).
  { eexists _, 150%Z. split; [apply list_elem_of_here|].
    split_and!; [reflexivity | reflexivity | lia]. }
  destruct (C1_invalid_credential_uniform sampleEnv (generateKey sampleBytes)
              400 [] 400 revokedStore) as (A1 & A2 & _ & A4);
    [reflexivity | done | done | by left | by right; left |].
  destruct (C1_invalid_credential_uniform sampleEnv (generateKey sampleBytes)
              400 revokedStore 400 expiringStore) as (_ & B2 & B3 & _);
    [reflexivity | done | done | by right; left | by right; right |].
  split_and!; [exact A1 | exact A2 | exact B2 | exact B3 |].
  apply A4; [reflexivity | discriminate].
Defined.

Lemma C3_inactive_only_by_revoke_witness :
  (∃ t, (Revoke "id-1", t) ∈
          [(Create noOptions "id-1" sampleBytes, 100%Z); (Revoke "id-1", 200%Z)]
        ∧ t = 200%Z) ∧
  validateApiKey sampleEnv 400 expiringStore (generateKey sampleBytes)
    = (None, expiringStore).
Proof.
  split.
  - destruct (C3_inactive_only_by_revoke sampleEnv
                [(Create noOptions "id-1" sampleBytes, 100%Z);
                 (Revoke "id-1", 200%Z)]) as (H1 & _ & _).
    destruct (H1 {| id := "id-1"; key := generateKey sampleBytes;
                    name := "API Key"; description := "";
                    permissions := ["*"]; active := false; createdAt := 100;
                    expiresAt := NoExpiry; lastUsedAt := None;
                    usageCount := 0; revokedAt := Some 200%Z;
                    updatedAt := None; regeneratedAt := None |})
      as (t & Ht & Hr).
    + apply list_elem_of_here.
    + reflexivity.
    + exists t. split; [exact Ht|]. simpl in Hr. congruence.
  - destruct (C3_inactive_only_by_revoke sampleEnv
                [(Create (mkOptions (Some "t") None (Some (ExpiresAt 150)) None)
                    "id-2" sampleBytes, 100%Z)]) as (_ & _ & H3).
    apply (H3 400%Z
             {| id := "id-2"; key := generateKey sampleBytes; name := "t";
                description := ""; permissions := ["*"]; active := true;
                createdAt := 100; expiresAt := ExpiresAt 150;
                lastUsedAt := None; usageCount := 0; revokedAt := None;
                updatedAt := None; regeneratedAt := None |} 150%Z).
    + vm_compute. apply NoDup_singleton.
    + apply list_elem_of_here.
    + reflexivity.
    + reflexivity.
    + reflexivity.
    + lia.
Defined.

End KeyFacts.

(** ** The event hub *)

Module HubFacts.
Import WhatsAppService HubTrace.

(** The listener of a registration returns whatever happens. *)
Lemma forward_returns webhookId event :
  neverThrows (WebhookRoutes.forward webhookId event).
Proof.
  intros data net. unfold WebhookRoutes.forward.
  destruct (WebhookRoutes.webhooks net !! webhookId) as [wh|]; [|done].
  by destruct (WebhookRoutes.active wh).
Qed.

Lemma forEach_cons {W D} (h : @handler W D) hs data w :
  forEach (h :: hs) data w =
    match h data w with
    | (w', Returned _) => forEach hs data w'
    | (w', Thrown e) => (w', Thrown e)
    end.
Proof. reflexivity. Qed.

Section Hub.
Context {W D : Type}.
Implicit Types (h : @handler W D) (hs : list (@handler W D)).

Lemma on_lookup event h (m : gmap string (list (@handler W D))) :
  default [] (on event h m !! event) = default [] (m !! event) ++ [h].
Proof. unfold on. by rewrite lookup_insert_eq. Qed.

Lemma on_lookup_ne event event' h (m : gmap string (list (@handler W D))) :
  event ≠ event' → on event h m !! event' = m !! event'.
Proof. intros. unfold on. by rewrite lookup_insert_ne. Qed.

Lemma traced_call n h data w (called : list nat) :
  traced n h data (w, called) =
    let '(w', c) := h data w in ((w', called ++ [n]), c).
Proof. reflexivity. Qed.

(** Calls of the handlers numbered from [n] on. *)
Lemma forEach_traced_from n hs data w called :
  let r := forEach (imap (λ i, traced (n + i)) hs) data (w, called) in
  (r.1.1, r.2) = forEach hs data w ∧
  ∃ c, r.1.2 = called ++ seq n c ∧ c ≤ length hs ∧
       (r.2 = Returned () → c = length hs).
Proof.
  revert n w called. induction hs as [|h hs IH]; intros n w called r.
  - split; [done|]. exists 0. simpl. by rewrite app_nil_r.
  - subst r. rewrite imap_cons, !forEach_cons. cbv beta.
    rewrite Nat.add_0_r, traced_call.
    rewrite (imap_ext _ (λ i, traced (S n + i))); last first.
    { intros i x _. simpl. f_equal. lia. }
    destruct (h data w) as [w' [[]|e]] eqn:Hh.
    + destruct (IH (S n) w' (called ++ [n])) as (E & c & Hc & Hle & Hall).
      split; [done|]. exists (S c). rewrite Hc. simpl.
      rewrite <- app_assoc. split_and!; [done | lia |].
      intros ?. f_equal. auto.
    + split; [done|]. exists 1. simpl. split_and!; [done | lia | done].
Qed.

Lemma forEach_traced hs data w :
  ((forEach (imap traced hs) data (w, [])).1.1,
   (forEach (imap traced hs) data (w, [])).2) = forEach hs data w ∧
  ∃ c, (forEach (imap traced hs) data (w, [])).1.2 = seq 0 c ∧
       c ≤ length hs ∧
       ((forEach (imap traced hs) data (w, [])).2 = Returned () →
        c = length hs).
Proof. exact (forEach_traced_from 0 hs data w []). Qed.

Lemma forEach_returns hs data w :
  Forall neverThrows hs → (forEach hs data w).2 = Returned ().
Proof.
  intros Hall. revert w. induction Hall as [|h hs Hh _ IH]; intros w; simpl.
  - done.
  - specialize (Hh data w). destruct (h data w) as [w' [[]|e]]; [|done].
    apply IH.
Qed.

Lemma forEach_app hs1 hs2 data w :
  forEach (hs1 ++ hs2) data w =
    match forEach hs1 data w with
    | (w1, Returned _) => forEach hs2 data w1
    | (w1, Thrown e) => (w1, Thrown e)
    end.
Proof.
  revert w. induction hs1 as [|h hs1 IH]; intros w; simpl; [done|].
  destruct (h data w) as [w' [[]|e]]; [apply IH | done].
Qed.

End Hub.




End HubFacts.

(** ** The webhook routes *)

Module WebhookFacts.
Import WhatsAppService WebhookRoutes WebhookSpec Samples.

Section Routes.
Variable stringify : Payload → string.
Variable hmacSha256Hex : string → string → string.
Variable isURL : string → bool.
Variable fetch : Request → Z + string.

Local Abbreviation register := (register isURL).
Local Abbreviation notification := (notification stringify hmacSha256Hex).

(** The signature sent is the HMAC, under the secret, of the very string
    sent as the body; without a secret there is none. *)
Lemma signature_covers_body wh event data now :
  xWebhookSignature (notification wh event data now) =
    (λ s, hmacSha256Hex s (requestBody (notification wh event data now)))
      <$> signingKey wh.
Proof. reflexivity. Qed.

(** What the route accepts: a URL that [isURL] accepts and an array of at
    least one element. The elements are not looked at. *)
Lemma register_accepts b hub :
  (∃ webhookId u evs, (register b hub).1 = Created webhookId u evs) ↔
  (∃ u, r_url b = Some u ∧ isURL u = true) ∧
  (∃ e evs, r_events b = Some (e :: evs)).
Proof.
  unfold WebhookRoutes.register, validationErrors. split.
  - intros (webhookId & u & evs & H).
    destruct (r_url b) as [u0|]; [destruct (isURL u0) eqn:Hu|];
      (destruct (r_events b) as [[|e es]|]; simpl in H; try discriminate).
    split; eauto.
  - intros [(u & Hu & Hok) (e & evs & He)].
    rewrite Hu, Hok, He. simpl. eauto.
Qed.

(** C5: the route registers a webhook for an event outside the
    vocabulary. With a URL that [isURL] accepts and [events: ["bogus"]],
    it answers 201, stores an active registration for ["bogus"] and
    subscribes its listener to the event "bogus". *)
Theorem C5_unlisted_event_registered hub :
  isURL "https://tuapp.com/webhook" = true →
  let b := mkRegisterBody (Some "https://tuapp.com/webhook") (Some ["bogus"])
             None in
  let r := register b hub in
  ("bogus" ∉ vocabulary) ∧
  ∃ webhookId,
    r.1 = Created webhookId "https://tuapp.com/webhook" ["bogus"] ∧
    (∃ wh, webhooks (net r.2) !! webhookId = Some wh ∧
           url wh = "https://tuapp.com/webhook" ∧
           events wh = ["bogus"] ∧ active wh = true) ∧
    default [] (eventHandlers r.2 !! "bogus") =
      default [] (eventHandlers hub !! "bogus") ++ [forward webhookId "bogus"].
Proof.
  intros Hurl b r. split.
  - intros Hin. unfold vocabulary in Hin.
    repeat (apply elem_of_cons in Hin as [Hin|Hin]; [discriminate|]).
    by apply elem_of_nil in Hin.
  - subst r b. unfold WebhookRoutes.register, validationErrors. simpl.
    rewrite Hurl. simpl. eexists. split_and!; [done| |].
    + eexists. split; [apply lookup_insert_eq|done].
    + apply HubFacts.on_lookup.
Qed.

End Routes.

Lemma C5_unlisted_event_registered_witness :
  ∃ webhookId,
    (register prefixedByHttp
       (mkRegisterBody (Some "https://tuapp.com/webhook") (Some ["bogus"]) None)
       emptyHub).1
    = Created webhookId "https://tuapp.com/webhook" ["bogus"].
Proof.
  destruct (C5_unlisted_event_registered prefixedByHttp emptyHub)
    as (_ & webhookId & H & _).
  - reflexivity.
  - exists webhookId. exact H.
Defined.

End WebhookFacts.

(** ** The bulk send *)

Module BulkFacts.
Import WhatsAppService BulkTrace Samples.

Section Sending.
Context {C : Type}.
Variable clientSendMessage : C → string → string → C * (string + string).
Variable uuidv4 : C → C * string.
Variable clock : C → Z.
Variable during : Z → @Service C → @Service C.

Local Abbreviation sendMessage := (sendMessage clientSendMessage uuidv4 clock).
Local Abbreviation turn := (turn clientSendMessage uuidv4 clock during).
Local Abbreviation sendBulkMessages :=
  (sendBulkMessages clientSendMessage uuidv4 clock during).

Lemma sendMessage_recorded p message sv :
  recorded p (entryOf p (sendMessage p message sv).2).
Proof.
  unfold WhatsAppService.sendMessage.
  destruct (isReady sv); simpl; [|right; eauto].
  destruct (uuidv4 (client sv)) as [c1 messageId].
  destruct (clientSendMessage c1 _ message) as [c2 [serialized|e]]; simpl.
  - left. eauto.
  - right. eauto.
Qed.

Lemma turn_results recipients message delay st p :
  results (turn recipients message delay st p) =
    results st ++ [entryOf p (sendMessage p message (service st)).2].
Proof.
  unfold WhatsAppService.turn.
  destruct (sendMessage p message (service st)) as [sv1 r].
  by destruct (notLast p recipients), r.
Qed.

Lemma turn_actions recipients message delay st p :
  actions (turn recipients message delay st p) =
    actions st ++ step recipients delay p.
Proof.
  unfold WhatsAppService.turn, step.
  destruct (sendMessage p message (service st)) as [sv1 r].
  destruct (notLast p recipients); simpl; [|done].
  by rewrite <- app_assoc.
Qed.

(** The loop over a part [todo] of the recipients. *)
Lemma loop_actions recipients message delay todo st :
  actions (foldl (turn recipients message delay) st todo) =
    actions st ++ concat (step recipients delay <$> todo).
Proof.
  revert st. induction todo as [|p todo IH]; intros st; simpl.
  - by rewrite app_nil_r.
  - by rewrite IH, turn_actions, <- app_assoc.
Qed.

Lemma loop_results recipients message delay todo st :
  ∃ added,
    results (foldl (turn recipients message delay) st todo)
      = results st ++ added ∧
    Forall2 recorded todo added.
Proof.
  revert st. induction todo as [|p todo IH]; intros st; simpl.
  - exists []. by rewrite app_nil_r.
  - destruct (IH (turn recipients message delay st p)) as (added & E & Hall).
    eexists (_ :: added). rewrite E, turn_results, <- app_assoc. split; [done|].
    constructor; [apply sendMessage_recorded | done].
Qed.

Lemma recorded_phone p e : recorded p e → entryPhone e = p.
Proof. by intros [(r & -> & ? & _) | (err & ->)]. Qed.

(** Which recipients are followed by a sleep: every one before the last
    place, and the one at the last place when it occurs before. *)
Lemma notLast_before init rest p :
  p ∈ init → rest ≠ [] → notLast p (init ++ rest) = true.
Proof.
  intros Hin Hrest. unfold notLast, indexOf.
  destruct (list_find (λ y, y = p) (init ++ rest)) as [[i x]|] eqn:Hfind;
    simpl.
  - apply bool_decide_eq_true_2.
    apply list_find_Some in Hfind as (Hi & -> & Hmin).
    apply list_elem_of_lookup in Hin as [j Hj].
    assert (j < length init) by (by eapply lookup_lt_Some).
    assert (i ≤ j).
    { destruct (decide (i ≤ j)) as [|Hgt]; [done|].
      destruct (Hmin j p); [by apply lookup_app_l_Some | lia | done]. }
    rewrite length_app. destruct rest; [done|]. simpl. lia.
  - apply list_find_None in Hfind.
    apply Forall_app in Hfind as [Hfind _].
    rewrite Forall_forall in Hfind. by destruct (Hfind p Hin).
Qed.

Lemma notLast_last init p :
  notLast p (init ++ [p]) = bool_decide (p ∈ init).
Proof.
  case_bool_decide as Hin.
  - by apply notLast_before.
  - unfold notLast, indexOf.
    assert (list_find (λ y, y = p) (init ++ [p]) = Some (length init, p))
      as ->.
    { apply list_find_Some. split_and!; [|done|].
      - rewrite lookup_app_r by done. by rewrite Nat.sub_diag.
      - intros j y Hj Hlt -> . apply Hin.
        rewrite lookup_app_l in Hj by done.
        by eapply list_elem_of_lookup_2. }
    simpl. apply bool_decide_eq_false_2. rewrite length_app. simpl. lia.
Qed.

(** The actions of a bulk send: a send and a sleep for every recipient
    but the last, then the send of the last, followed by one more sleep
    exactly when the last recipient occurs earlier in the list. *)
Lemma bulk_actions init last message delay sv :
  actions (sendBulkMessages (init ++ [last]) message delay sv) =
    concat ((λ p, [SendTo p; Sleep (delayOf delay)]) <$> init)
    ++ SendTo last
       :: (if bool_decide (last ∈ init) then [Sleep (delayOf delay)] else []).
Proof.
  unfold WhatsAppService.sendBulkMessages. rewrite loop_actions. simpl.
  rewrite fmap_app, concat_app. simpl. rewrite app_nil_r. f_equal.
  - f_equal. apply Forall_fmap_ext_1, Forall_forall.
    intros p Hin. unfold step. by rewrite notLast_before.
  - unfold step. by rewrite notLast_last.
Qed.

End Sending.

Lemma sends_in_order recipients delay todo :
  filter (λ a, isSleep a = false) (concat (step recipients delay <$> todo))
    = SendTo <$> todo.
Proof.
  induction todo as [|p todo IH]; [done|].
  rewrite fmap_cons, (fmap_cons SendTo). cbn [concat].
  rewrite filter_app, IH. unfold step.
  rewrite filter_cons_True by done.
  destruct (notLast p recipients); [|done].
  by rewrite filter_cons_False.
Qed.

Lemma sleeps_counted init delay :
  length (filter (λ a, isSleep a = true)
            (concat ((λ p, [SendTo p; Sleep delay]) <$> init)))
    = length init.
Proof.
  induction init as [|p init IH]; [done|].
  rewrite fmap_cons. cbn [concat app].
  rewrite filter_cons_False by done.
  rewrite filter_cons_True by done. simpl. by rewrite IH.
Qed.

Lemma recorded_phones recipients entries :
  Forall2 recorded recipients entries → entryPhone <$> entries = recipients.
Proof.
  induction 1 as [|p e ps es Hpe _ IH]; [done|].
  by rewrite fmap_cons, IH, (recorded_phone p e Hpe).
Qed.

Lemma successes_and_failures (entries : list BulkEntry) :
  length (filter (λ r, success r = true) entries)
    + length (filter (λ r, success r = false) entries) = length entries.
Proof.
  induction entries as [|e entries IH]; [done|].
  destruct (success e) eqn:He.
  - rewrite filter_cons_True, filter_cons_False by congruence. simpl. lia.
  - rewrite filter_cons_False, filter_cons_True by congruence. simpl. lia.
Qed.


(** C9: the code sleeps after the last send when the last recipient also
    occurs earlier in the list. In general the number of sleeps is the
    number of recipients before the last, plus one when the last is a
    repetition; for a number that occurs first and last among three
    recipients the loop sleeps three times, the third time after the last
    send. *)
Theorem C9_sleep_after_repeated_last {C : Type}
    (clientSendMessage : C → string → string → C * (string + string))
    (uuidv4 : C → C * string) (clock : C → Z)
    (during : Z → @Service C → @Service C)
    (message : string) (delay : option Z) (sv : @Service C) :
  (∀ init last,
     length (filter (λ a, isSleep a = true)
               (actions (sendBulkMessages clientSendMessage uuidv4 clock
                           during (init ++ [last]) message delay sv)))
     = length init + (if bool_decide (last ∈ init) then 1 else 0)) ∧
  actions (sendBulkMessages clientSendMessage uuidv4 clock during
             ["573001234567"; "573009876543"; "573001234567"] message delay sv)
  = [SendTo "573001234567"; Sleep (delayOf delay);
     SendTo "573009876543"; Sleep (delayOf delay);
     SendTo "573001234567"; Sleep (delayOf delay)].
Proof.
  split.
  - intros init last. rewrite bulk_actions, filter_app, length_app.
    rewrite sleeps_counted, filter_cons_False by done.
    by case_bool_decide.
  - apply (bulk_actions clientSendMessage uuidv4 clock during
             ["573001234567"; "573009876543"] "573001234567").
Qed.

End BulkFacts.

(** ** More on the key service *)

Module KeyMore.
Import ApiKeyService KeyStore KeyStoreMore.

(** *** What validation accepts *)

(** The two ways [validateApiKey] accepts, and what a refusal leaves. *)
Lemma validate_inversion env now data apiKey :
  (∀ info data',
     validateApiKey env now data apiKey = (Some info, data') →
     (info = MasterInfo ∧ API_KEY env = Some apiKey ∧ apiKey ≠ ""
      ∧ data' = data) ∨
     (∃ j k, data !! j = Some k ∧ key k = apiKey ∧ active k = true ∧
             isExpired now k = false ∧
             info = StoredInfo (recordUse now k) ∧
             data' = <[j := recordUse now k]> data ∧
             ∀ j' k', j' < j → data !! j' = Some k' →
                      ¬ (key k' = apiKey ∧ active k' = true))) ∧
  (∀ data', validateApiKey env now data apiKey = (None, data') →
            data' = data ∧ matchesMaster env apiKey = false).
Proof.
  unfold validateApiKey. split.
  - intros info data' H.
    destruct (matchesMaster env apiKey) eqn:Hm.
    + left. injection H as <- <-. unfold matchesMaster in Hm.
      destruct (API_KEY env) as [m|]; [|done].
      apply andb_true_iff in Hm as [Hne Heq].
      apply bool_decide_eq_true_1 in Heq. subst m.
      apply negb_true_iff, bool_decide_eq_false_1 in Hne. done.
    + right. destruct (list_find _ data) as [[j k]|] eqn:Hfind; [|done].
      destruct (isExpired now k) eqn:He; [done|].
      injection H as <- <-.
      apply list_find_Some in Hfind as (Hj & [Hk Ha] & Hmin).
      exists j, k. split_and!; try done.
      intros j' k' Hlt Hj'. by apply (Hmin j' k').
  - intros data' H.
    destruct (matchesMaster env apiKey); [done|].
    destruct (list_find _ data) as [[j k]|]; [|by injection H as <-].
    destruct (isExpired now k); [by injection H as <-|done].
Qed.

(** X1: An acceptance by [validateApiKey] is either the configured master
    key, with nothing written, or the first active record holding the
    secret, which is not expired and whose use is recorded at its place;
    a refusal writes nothing. *)
Theorem validate_accepts_only_live_records env now data apiKey :
  (∀ info data',
     validateApiKey env now data apiKey = (Some info, data') →
     (info = MasterInfo ∧ API_KEY env = Some apiKey ∧ apiKey ≠ ""
      ∧ data' = data) ∨
     (∃ j k, data !! j = Some k ∧ key k = apiKey ∧ active k = true ∧
             isExpired now k = false ∧
             info = StoredInfo (recordUse now k) ∧
             data' = <[j := recordUse now k]> data ∧
             ∀ j' k', j' < j → data !! j' = Some k' →
                      ¬ (key k' = apiKey ∧ active k' = true))) ∧
  (∀ data', validateApiKey env now data apiKey = (None, data') →
            data' = data ∧ matchesMaster env apiKey = false).
Proof.
  apply validate_inversion.
Qed.

Lemma validate_accepts_only_live_records_witness :
  ∃ k, (validateApiKey sampleEnv 120 expiringStore (generateKey sampleBytes)).1
       = Some (StoredInfo (recordUse 120 k)) ∧ active k = true.
Proof.
  destruct (validate_accepts_only_live_records sampleEnv 120 expiringStore
              (generateKey sampleBytes)) as [H _].
  destruct (validateApiKey sampleEnv 120 expiringStore
              (generateKey sampleBytes)) as [[info|] data'] eqn:Heq.
  - destruct (H info data' eq_refl)
      as [(Hm & _ & _ & Hd) | (j & k & _ & _ & Ha & _ & Hi & _)].
    + subst info data'. vm_compute in Heq. discriminate Heq.
    + exists k. split; [|exact Ha]. simpl. by rewrite Hi.
  - vm_compute in Heq. discriminate Heq.
Defined.

(** *** Create, then validate *)

(** X2: The secret of a key just created (fresh, and not the master key) is
    accepted at any instant at which the key is not expired; the use is
    recorded on the new record, the last of the store: its count goes
    from 0 to 1. *)
Theorem create_then_validate env options uuid randomBytes now t data :
  let newKey := (createApiKey options uuid randomBytes now data).1 in
  let data' := (createApiKey options uuid randomBytes now data).2 in
  generateKey randomBytes ∉ key <$> data →
  matchesMaster env (generateKey randomBytes) = false →
  isExpired t newKey = false →
  usageCount newKey = 0%Z ∧
  validateApiKey env t data' (key newKey)
    = (Some (StoredInfo (recordUse t newKey)), data ++ [recordUse t newKey]) ∧
  usageCount (recordUse t newKey) = 1%Z ∧
  lastUsedAt (recordUse t newKey) = Some t.
Proof.
  intros newKey data' Hfresh Hm He. split_and!; try done.
  assert (data' = data ++ [newKey]) as -> by done.
  assert (key newKey = generateKey randomBytes) as Hk by done.
  unfold validateApiKey. rewrite Hk, Hm.
  assert (list_find (λ k, key k = generateKey randomBytes ∧ active k = true)
            (data ++ [newKey]) = Some (length data, newKey)) as ->.
  { apply list_find_Some. split; [|split].
    - rewrite lookup_app_r by done. by rewrite Nat.sub_diag.
    - done.
    - intros j y Hj Hlt HP. destruct HP as [Hkey _].
      rewrite lookup_app_l in Hj by done.
      apply Hfresh. rewrite <- Hkey.
      eapply list_elem_of_fmap_2, list_elem_of_lookup_2, Hj. }
  rewrite He. f_equal.
  rewrite insert_app_r_alt by done. by rewrite Nat.sub_diag.
Qed.

Lemma create_then_validate_witness :
  (validateApiKey sampleEnv 120
     (createApiKey noOptions "id-3" otherBytes 100 expiringStore).2
     (generateKey otherBytes)).1
  = Some (StoredInfo
            (recordUse 120
               (createApiKey noOptions "id-3" otherBytes 100
                  expiringStore).1)).
Proof.
  destruct (create_then_validate sampleEnv noOptions "id-3" otherBytes 100
              120 expiringStore) as (_ & H & _).
  - vm_compute. apply not_elem_of_cons.
    split; [discriminate | apply not_elem_of_nil].
  - reflexivity.
  - reflexivity.
  - change (key (createApiKey noOptions "id-3" otherBytes 100
                   expiringStore).1) with (generateKey otherBytes) in H.
    rewrite H. reflexivity.
Defined.

(** *** Lists *)

Lemma alter_fixpoint {A} (f : A → A) (j : nat) (l : list A) x :
  l !! j = Some x → f x = x → alter f j l = l.
Proof.
  intros Hj Hf. apply list_eq. intros n.
  destruct (decide (j = n)) as [<-|Hne].
  - rewrite list_lookup_alter_eq, Hj. simpl. by rewrite Hf.
  - by rewrite list_lookup_alter_ne.
Qed.

Lemma alter_alter {A} (f g : A → A) (j : nat) (l : list A) :
  alter f j (alter g j l) = alter (λ x, f (g x)) j l.
Proof.
  apply list_eq. intros n. destruct (decide (j = n)) as [<-|Hne].
  - rewrite !list_lookup_alter_eq. by destruct (l !! j).
  - by rewrite !list_lookup_alter_ne.
Qed.

Lemma elem_of_delete_other {A} (j : nat) (l : list A) x :
  x ∈ delete j l → ∃ n, n ≠ j ∧ l !! n = Some x.
Proof.
  intros [n Hn]%list_elem_of_lookup.
  destruct (decide (n < j)) as [Hlt|Hge].
  - rewrite list_lookup_delete_lt in Hn by done. exists n. split; [lia|done].
  - rewrite list_lookup_delete_ge in Hn by lia. exists (S n). split; [lia|done].
Qed.

(** Removing an element a search does not stop at leaves what the search
    finds. *)
Lemma find_delete_other {A} (P : A → Prop) `{∀ x, Decision (P x)}
    (j : nat) (l : list A) x :
  l !! j = Some x → ¬ P x →
  snd <$> list_find P (delete j l) = snd <$> list_find P l.
Proof.
  revert j. induction l as [|y l IH]; intros [|j] Hj HP; simpl in *.
  - done.
  - done.
  - injection Hj as ->. rewrite decide_False by done.
    by destruct (list_find P l) as [[??]|].
  - destruct (decide (P y)); [done|].
    specialize (IH j Hj HP).
    destruct (list_find P (delete j l)) as [[??]|],
             (list_find P l) as [[??]|]; simpl in *; congruence.
Qed.

(** *** Revoke, then activate *)

Lemma getApiKeyById_Some i data k :
  getApiKeyById i data = Some k →
  ∃ j, list_find (λ r, id r = i) data = Some (j, k) ∧ data !! j = Some k
       ∧ id k = i ∧ findIndexById i data = Some j.
Proof.
  unfold getApiKeyById, findIndexById.
  destruct (list_find _ data) as [[j k0]|] eqn:Hfind; [|done].
  intros [= ->]. exists j.
  apply list_find_Some in Hfind as H'. destruct H' as (Hj & Hid & _). done.
Qed.

Lemma findIndexById_alter i (f : ApiKeyRecord → ApiKeyRecord) j k data :
  (∀ r, id (f r) = id r) →
  list_find (λ r, id r = i) data = Some (j, k) →
  findIndexById i (alter f j data) = Some j.
Proof.
  intros Hf Hfind. unfold findIndexById.
  rewrite (KeyFacts.list_find_alter_same (λ r, id r = i) f data j k); [done| |done].
  intros y. by rewrite Hf.
Qed.

(** X3: Once the record found under an id is revoked, its secret is refused
    at every instant (secrets distinct, secret not the master key);
    activating it makes the secret accepted again at the instants at
    which the record is not expired; and if the record was active and
    never revoked, revoking then activating gives the store back as it
    was. *)
Theorem revoke_then_activate env i k now data :
  let revoked := (revokeApiKey i now data).2 in
  let activated := (activateApiKey i revoked).2 in
  getApiKeyById i data = Some k →
  uniqueSecrets data →
  matchesMaster env (key k) = false →
  (∀ t, validateApiKey env t revoked (key k) = (None, revoked)) ∧
  (∀ t, (validateApiKey env t activated (key k)).1 =
          if isExpired t k then None
          else Some (StoredInfo
                       (recordUse t (set_revokedAt None (set_active true k))))) ∧
  (active k = true → revokedAt k = None → activated = data).
Proof.
  intros revoked activated (j & Hfind & Hj & Hid & Hidx)%getApiKeyById_Some
    Hu Hm.
  set (f := λ r, set_revokedAt (Some now) (set_active false r)).
  set (g := λ r, set_revokedAt None (set_active true r)).
  assert (revoked = alter f j data) as Hrev.
  { unfold revoked, revokeApiKey. by rewrite Hidx. }
  assert (activated = alter (λ r, g (f r)) j data) as Hact.
  { unfold activated, activateApiKey. rewrite Hrev.
    rewrite (findIndexById_alter i f j k) by done. simpl.
    apply alter_alter. }
  split_and!.
  - intros t. rewrite Hrev.
    assert (alter f j data !! j = Some (f k)) as Hj'
      by (by rewrite list_lookup_alter_eq, Hj).
    assert (uniqueSecrets (alter f j data)) as Hu'.
    { unfold uniqueSecrets. by rewrite KeyFacts.keys_alter. }
    pose proof (KeyFacts.validate_unique env t _ j (f k) Hm Hu' Hj') as E.
    change (key (f k)) with (key k) in E. by rewrite E.
  - intros t. rewrite Hact.
    assert (alter (λ r, g (f r)) j data !! j = Some (g (f k))) as Hj'
      by (by rewrite list_lookup_alter_eq, Hj).
    assert (uniqueSecrets (alter (λ r, g (f r)) j data)) as Hu'.
    { unfold uniqueSecrets. by rewrite KeyFacts.keys_alter. }
    pose proof (KeyFacts.validate_unique env t _ j (g (f k)) Hm Hu' Hj')
      as E.
    change (key (g (f k))) with (key k) in E. rewrite E.
    change (isExpired t (g (f k))) with (isExpired t k).
    change (active (g (f k))) with true. simpl.
    by destruct (isExpired t k).
  - intros Ha Hr. rewrite Hact. apply (alter_fixpoint _ j data k Hj).
    destruct k. simpl in *. by subst.
Qed.

Lemma revoke_then_activate_witness :
  validateApiKey sampleEnv 120 (revokeApiKey "id-2" 110 expiringStore).2
    (generateKey sampleBytes)
  = (None, (revokeApiKey "id-2" 110 expiringStore).2) ∧
  (activateApiKey "id-2" (revokeApiKey "id-2" 110 expiringStore).2).2
  = expiringStore.
Proof.
  destruct (revoke_then_activate sampleEnv "id-2"
              {| id := "id-2"; key := generateKey sampleBytes; name := "t";
                 description := ""; permissions := ["*"]; active := true;
                 createdAt := 100; expiresAt := ExpiresAt 150;
                 lastUsedAt := None; usageCount := 0; revokedAt := None;
                 updatedAt := None; regeneratedAt := None |}
              110 expiringStore) as (H1 & _ & H3).
  - reflexivity.
  - vm_compute. apply NoDup_singleton.
  - reflexivity.
  - split; [apply (H1 120%Z) | by apply H3].
Defined.

(** *** Unknown ids *)

Lemma getApiKeyById_None i data :
  getApiKeyById i data = None ↔ ∀ k, k ∈ data → id k ≠ i.
Proof.
  unfold getApiKeyById. split.
  - destruct (list_find _ data) as [[j k0]|] eqn:Hfind; [done|].
    intros _ k Hk. apply list_find_None in Hfind.
    rewrite Forall_forall in Hfind. by apply Hfind.
  - intros Hall.
    destruct (list_find _ data) as [[j k0]|] eqn:Hfind; [|done].
    apply list_find_Some in Hfind as (Hj & Hid & _).
    destruct (Hall k0); [by eapply list_elem_of_lookup_2 | done].
Qed.

(** X4: When no record has the id, [getApiKeyById] finds nothing, and
    [revokeApiKey], [activateApiKey], [deleteApiKey], [updateApiKey] and
    [regenerateApiKey] answer 'API Key no encontrada' and leave the store
    as it was. *)
Theorem unknown_id_changes_nothing i data :
  (∀ k, k ∈ data → id k ≠ i) →
  getApiKeyById i data = None ∧
  ∀ now updates randomBytes,
    revokeApiKey i now data = (Failure "API Key no encontrada", data) ∧
    activateApiKey i data = (Failure "API Key no encontrada", data) ∧
    deleteApiKey i data = (Failure "API Key no encontrada", data) ∧
    updateApiKey i updates now data
      = (Failure "API Key no encontrada", data) ∧
    regenerateApiKey i randomBytes now data
      = (Failure "API Key no encontrada", data).
Proof.
  intros Hall.
  assert (list_find (λ k, id k = i) data = None) as Hnone.
  { apply list_find_None, Forall_forall. exact Hall. }
  split; [by apply getApiKeyById_None|]. intros now updates randomBytes.
  unfold revokeApiKey, activateApiKey, deleteApiKey, updateApiKey,
    regenerateApiKey, findIndexById. by rewrite Hnone.
Qed.

Lemma unknown_id_changes_nothing_witness :
  deleteApiKey "id-9" expiringStore
    = (Failure "API Key no encontrada", expiringStore) ∧
  regenerateApiKey "id-9" otherBytes 300 expiringStore
    = (Failure "API Key no encontrada", expiringStore).
Proof.
  destruct (unknown_id_changes_nothing "id-9" expiringStore) as [_ H].
  - intros k Hk. apply list_elem_of_singleton in Hk. subst k. discriminate.
  - destruct (H 300%Z noUpdates otherBytes) as (_ & _ & Hd & _ & Hr).
    split; [exact Hd | exact Hr].
Defined.

(** *** Delete *)

(** X5: Deleting the record found under an id removes that record and no
    other: the store has one record less, the other ids find what they
    found before and, ids being distinct, the id finds nothing any more;
    its secret is refused from then on (secrets distinct, secret not the
    master key). *)
Theorem delete_removes_one_record env i k data :
  let data' := (deleteApiKey i data).2 in
  getApiKeyById i data = Some k →
  (deleteApiKey i data).1 = Success "API Key eliminada permanentemente" ∧
  length data = S (length data') ∧
  (∀ i', i' ≠ i → getApiKeyById i' data' = getApiKeyById i' data) ∧
  (uniqueIds data → getApiKeyById i data' = None) ∧
  (uniqueSecrets data → matchesMaster env (key k) = false →
   ∀ t, validateApiKey env t data' (key k) = (None, data')).
Proof.
  intros data' (j & Hfind & Hj & Hid & Hidx)%getApiKeyById_Some.
  assert (deleteApiKey i data
          = (Success "API Key eliminada permanentemente", delete j data))
    as Hdel by (unfold deleteApiKey; by rewrite Hidx).
  subst data'. rewrite Hdel. simpl. split_and!.
  - done.
  - rewrite length_delete by eauto.
    apply lookup_lt_Some in Hj. lia.
  - intros i' Hne. unfold getApiKeyById.
    apply (find_delete_other (λ r, id r = i') j data k Hj). congruence.
  - intros Hu. apply getApiKeyById_None.
    intros r (n & Hn & Hr)%elem_of_delete_other Hri. apply Hn.
    eapply NoDup_lookup; [exact Hu | |].
    + rewrite list_lookup_fmap, Hr. reflexivity.
    + rewrite list_lookup_fmap, Hj. simpl. congruence.
  - intros Hu Hm t. apply KeyFacts.validate_unknown; [done|].
    intros r (n & Hn & Hr)%elem_of_delete_other Hrk. apply Hn.
    by eapply KeyFacts.uniqueSecrets_index.
Qed.

Lemma delete_removes_one_record_witness :
  (deleteApiKey "id-2" expiringStore).2 = [] ∧
  getApiKeyById "id-2" (deleteApiKey "id-2" expiringStore).2 = None.
Proof.
  destruct (delete_removes_one_record sampleEnv "id-2"
              {| id := "id-2"; key := generateKey sampleBytes; name := "t";
                 description := ""; permissions := ["*"]; active := true;
                 createdAt := 100; expiresAt := ExpiresAt 150;
                 lastUsedAt := None; usageCount := 0; revokedAt := None;
                 updatedAt := None; regeneratedAt := None |}
              expiringStore) as (_ & _ & _ & H & _).
  - reflexivity.
  - split; [reflexivity|]. apply H. vm_compute. apply NoDup_singleton.
Defined.

(** *** Usage counters along a run *)

(** Where the usage of a record of the store a call leaves comes from:
    a record of the store before with the same usage, a creation, or a
    use that a [Validate] call at that instant recorded. *)
Lemma exec_usage env data c k' :
  k' ∈ exec env data c →
  (∃ k, k ∈ data ∧ usageCount k' = usageCount k
        ∧ lastUsedAt k' = lastUsedAt k)
  ∨ (usageCount k' = 0%Z ∧ lastUsedAt k' = None)
  ∨ (∃ k, k ∈ data ∧ usageCount k' = (usageCount k + 1)%Z
          ∧ lastUsedAt k' = Some c.2 ∧ c.1 = Validate (key k')).
Proof.
  destruct c as [[options uuid rb | apiKey | i updates | i | i | i | i rb] now];
    unfold exec; simpl; intros Hin.
  - apply elem_of_app in Hin as [Hin | ->%list_elem_of_singleton].
    + left. by exists k'.
    + right; left. done.
  - unfold validateApiKey in Hin.
    destruct (matchesMaster env apiKey); [left; by exists k'|].
    destruct (list_find _ data) as [[j k0]|] eqn:Hfind; [|left; by exists k'].
    destruct (isExpired now k0); [left; by exists k'|].
    apply KeyFacts.find_active_spec in Hfind as (Hj & Hk & _).
    apply KeyFacts.elem_of_insert_inv in Hin as [Hin | ->];
      [left; by exists k'|].
    right; right. exists k0.
    split; [by eapply list_elem_of_lookup_2|]. simpl. by rewrite Hk.
  - unfold updateApiKey in Hin.
    destruct (list_find _ data) as [[j k0]|] eqn:Hfind; [|left; by exists k'].
    apply list_find_Some in Hfind as (Hj & _ & _).
    apply KeyFacts.elem_of_insert_inv in Hin as [Hin | ->];
      left; [by exists k'|].
    exists k0. split; [by eapply list_elem_of_lookup_2|].
    by destruct (KeyFacts.applyUpdates_protected updates now k0)
      as (_ & _ & _ & ? & _ & ? & _).
  - unfold revokeApiKey in Hin.
    destruct (findIndexById i data) as [j|]; [|left; by exists k'].
    apply KeyFacts.elem_of_alter_inv in Hin as [Hin | (y & Hy & ->)];
      left; [by exists k'|].
    exists y. split; [by eapply list_elem_of_lookup_2|done].
  - unfold activateApiKey in Hin.
    destruct (findIndexById i data) as [j|]; [|left; by exists k'].
    apply KeyFacts.elem_of_alter_inv in Hin as [Hin | (y & Hy & ->)];
      left; [by exists k'|].
    exists y. split; [by eapply list_elem_of_lookup_2|done].
  - unfold deleteApiKey in Hin.
    destruct (findIndexById i data) as [j|]; [|left; by exists k'].
    apply list_elem_of_delete_inv in Hin. left; by exists k'.
  - unfold regenerateApiKey in Hin.
    destruct (findIndexById i data) as [j|]; [|left; by exists k'].
    apply KeyFacts.elem_of_alter_inv in Hin as [Hin | (y & Hy & ->)];
      left; [by exists k'|].
    exists y. split; [by eapply list_elem_of_lookup_2|done].
Qed.

(** X6: In the store any sequence of calls leaves, a usage count is never
    negative, it is 0 exactly when the record was never used
    ([lastUsedAt] is [null]), and a [lastUsedAt] is the instant of a
    [Validate] call of the sequence. *)
Theorem usage_counts_along_runs env calls k :
  k ∈ run env calls →
  (0 ≤ usageCount k)%Z ∧
  (usageCount k = 0%Z ↔ lastUsedAt k = None) ∧
  (∀ t, lastUsedAt k = Some t → ∃ apiKey, (Validate apiKey, t) ∈ calls).
Proof.
  revert k. induction calls as [|c calls IH] using rev_ind; intros k Hin.
  - by apply elem_of_nil in Hin.
  - rewrite KeyFacts.run_snoc in Hin.
    destruct (exec_usage _ _ _ _ Hin)
      as [(k0 & Hin0 & Hu & Hl) | [[Hu Hl] | (k0 & Hin0 & Hu & Hl & Hc)]].
    + destruct (IH k0 Hin0) as (Hpos & Hiff & Hused).
      rewrite Hu, Hl. split_and!; [done..|].
      intros t Ht. destruct (Hused t Ht) as [apiKey Hcall].
      exists apiKey. apply elem_of_app. by left.
    + rewrite Hu, Hl. split_and!; [done | done | intros ? [=]].
    + destruct (IH k0 Hin0) as (Hpos & _ & _).
      rewrite Hu, Hl. split_and!; [lia | split; [lia | done] |].
      intros t [= <-]. exists (key k). apply elem_of_app. right.
      apply list_elem_of_singleton. destruct c as [op now].
      simpl in *. by subst.
Qed.

Lemma usage_counts_along_runs_witness :
  ∃ apiKey, (Validate apiKey, 120%Z) ∈
    [(Create noOptions "id-1" sampleBytes, 100%Z);
     (Validate (generateKey sampleBytes), 120%Z)].
Proof.
  destruct (usage_counts_along_runs sampleEnv
              [(Create noOptions "id-1" sampleBytes, 100%Z);
               (Validate (generateKey sampleBytes), 120%Z)]
              {| id := "id-1"; key := generateKey sampleBytes;
                 name := "API Key"; description := ""; permissions := ["*"];
                 active := true; createdAt := 100; expiresAt := NoExpiry;
                 lastUsedAt := Some 120%Z; usageCount := 1;
                 revokedAt := None; updatedAt := None;
                 regeneratedAt := None |}) as (_ & _ & H).
  - apply list_elem_of_here.
  - apply (H 120%Z). reflexivity.
Defined.

(** *** Distinct ids and secrets along a run *)

Lemma ids_alter (f : ApiKeyRecord → ApiKeyRecord) (j : nat)
    (data : list ApiKeyRecord) :
  (∀ k, id (f k) = id k) → id <$> alter f j data = id <$> data.
Proof.
  intros Hf. rewrite (list_fmap_alter id f (λ x, x))
    by (apply Forall_forall; auto).
  by apply list_alter_id.
Qed.

Lemma ids_insert (j : nat) k k' (data : list ApiKeyRecord) :
  data !! j = Some k → id k' = id k →
  id <$> <[j := k']> data = id <$> data.
Proof.
  intros Hj Hk. rewrite list_fmap_insert. apply list_insert_id.
  by rewrite list_lookup_fmap, Hj, Hk.
Qed.

Lemma exec_uniqueIds env data c :
  uniqueIds data →
  match c.1 with
  | Create _ uuid _ => uuid ∉ id <$> data
  | _ => True
  end →
  uniqueIds (exec env data c).
Proof.
  unfold uniqueIds.
  destruct c as [[options uuid rb | apiKey | i updates | i | i | i | i rb] now];
    unfold exec; simpl; intros Hu Hfresh.
  - rewrite fmap_app. apply NoDup_app.
    split_and!; [done | | apply NoDup_singleton].
    intros s Hs ->%list_elem_of_singleton. done.
  - unfold validateApiKey.
    destruct (matchesMaster env apiKey); [done|].
    destruct (list_find _ data) as [[j k0]|] eqn:Hfind; [|done].
    destruct (isExpired now k0); [done|]. simpl.
    apply KeyFacts.find_active_spec in Hfind as (Hj & _ & _).
    by rewrite (ids_insert j k0).
  - unfold updateApiKey.
    destruct (list_find _ data) as [[j k0]|] eqn:Hfind; [|done]. simpl.
    apply list_find_Some in Hfind as (Hj & _ & _).
    rewrite (ids_insert j k0); [done..|].
    by destruct (KeyFacts.applyUpdates_protected updates now k0) as (? & _).
  - unfold revokeApiKey.
    destruct (findIndexById i data) as [j|]; [|done]. simpl.
    by rewrite ids_alter.
  - unfold activateApiKey.
    destruct (findIndexById i data) as [j|]; [|done]. simpl.
    by rewrite ids_alter.
  - unfold deleteApiKey.
    destruct (findIndexById i data) as [j|]; [|done]. simpl.
    rewrite list_fmap_delete.
    eapply sublist_NoDup; [done | apply sublist_delete].
  - unfold regenerateApiKey.
    destruct (findIndexById i data) as [j|]; [|done]. simpl.
    by rewrite ids_alter.
Qed.

(** X7: As long as the ids and the secrets drawn are fresh, the ids of the
    store are pairwise distinct and so are its secrets, whatever the
    calls: no call copies an id or a secret from one record to
    another. *)
Theorem fresh_draws_keep_ids_and_secrets_distinct env calls :
  freshUuids env [] calls → freshDraws env [] calls →
  uniqueIds (run env calls) ∧ uniqueSecrets (run env calls).
Proof.
  intros Hids Hkeys. split; [|by apply KeyFacts.run_uniqueSecrets].
  unfold run. assert (uniqueIds []) as Hnil by constructor.
  revert Hnil Hids. clear Hkeys. generalize (@nil ApiKeyRecord) as data.
  induction calls as [|c calls IH]; intros data Hu Hfresh; simpl; [done|].
  destruct Hfresh as [Hc Hrest].
  apply IH; [|done]. by apply exec_uniqueIds.
Qed.

Lemma fresh_draws_keep_ids_and_secrets_distinct_witness :
  uniqueIds
    (run sampleEnv [(Create noOptions "id-1" sampleBytes, 100%Z);
                    (Create noOptions "id-2" otherBytes, 110%Z);
                    (Regenerate "id-1" (repeat Byte.x11 24), 120%Z)]) ∧
  uniqueSecrets
    (run sampleEnv [(Create noOptions "id-1" sampleBytes, 100%Z);
                    (Create noOptions "id-2" otherBytes, 110%Z);
                    (Regenerate "id-1" (repeat Byte.x11 24), 120%Z)]).
Proof.
  apply fresh_draws_keep_ids_and_secrets_distinct.
  - simpl. split_and!; try done.
    + apply not_elem_of_nil.
    + apply not_elem_of_cons. split; [discriminate | apply not_elem_of_nil].
  - simpl. split_and!; try done.
    + apply not_elem_of_nil.
    + vm_compute. apply not_elem_of_cons.
      split; [discriminate | apply not_elem_of_nil].
    + vm_compute. apply not_elem_of_cons. split; [discriminate|].
      apply not_elem_of_cons. split; [discriminate | apply not_elem_of_nil].
Defined.

(** *** The generated secret *)

Lemma hex_byte b :
  hexValue (hexDigit (Byte.to_N b / 16)) = Some (Byte.to_N b / 16)%N ∧
  hexValue (hexDigit (Byte.to_N b mod 16)) = Some (Byte.to_N b mod 16)%N ∧
  Byte.of_N (16 * (Byte.to_N b / 16) + Byte.to_N b mod 16) = Some b.
Proof. destruct b; repeat split; vm_compute; reflexivity. Qed.

Lemma fromHex_toHex bytes : fromHex (toHex bytes) = Some bytes.
Proof.
  induction bytes as [|b bytes IH]; [done|].
  destruct (hex_byte b) as (H1 & H2 & H3).
  cbn [toHex fromHex]. by rewrite H1, H2, IH, H3.
Qed.

Lemma append_inv_l (p a b : string) : p +:+ a = p +:+ b → a = b.
Proof. induction p as [|c p IH]; simpl; [done|]. intros [=]. auto. Qed.

(** X8: The secret [generateKey] makes is 'wapi_' followed by two
    hexadecimal digits per random byte, from which the bytes can be read
    back: different draws give different secrets, and 24 bytes give 53
    characters. *)
Theorem generateKey_reads_back bytes :
  generateKey bytes = "wapi_" +:+ toHex bytes ∧
  fromHex (toHex bytes) = Some bytes ∧
  String.length (generateKey bytes) = 5 + 2 * length bytes ∧
  (∀ bytes', generateKey bytes = generateKey bytes' → bytes = bytes').
Proof.
  split_and!.
  - done.
  - apply fromHex_toHex.
  - apply KeyFacts.length_generateKey.
  - intros bytes' Heq. unfold generateKey in Heq.
    apply append_inv_l in Heq.
    pose proof (fromHex_toHex bytes) as H1.
    rewrite Heq, fromHex_toHex in H1. congruence.
Qed.

Lemma generateKey_reads_back_witness :
  generateKey sampleBytes ≠ generateKey otherBytes.
Proof.
  intros Heq.
  destruct (generateKey_reads_back sampleBytes) as (_ & _ & _ & Hinj).
  specialize (Hinj otherBytes Heq). discriminate Hinj.
Defined.

(** *** The masked form *)

Lemma substring0_short n s :
  (String.length s ≤ n)%nat → substring0 n s = s.
Proof.
  revert n. induction s as [|c s IH]; intros [|n] Hle; simpl in *;
    try done; try lia.
  rewrite IH; [done | lia].
Qed.

Lemma length_substring0_long n s :
  (n ≤ String.length s)%nat → String.length (substring0 n s) = n.
Proof.
  revert s. induction n as [|n IH]; intros [|c s] Hle; simpl in *;
    try done; try lia.
  rewrite IH; [done | lia].
Qed.

Lemma substring_all n s :
  (String.length s ≤ n)%nat → String.substring 0 n s = s.
Proof.
  revert n. induction s as [|c s IH]; intros [|n] Hle; simpl in *;
    try done; try lia.
  rewrite IH; [done | lia].
Qed.

Lemma length_substring_exact n m s :
  (n + m ≤ String.length s)%nat →
  String.length (String.substring n m s) = m.
Proof.
  revert n m. induction s as [|c s IH]; intros [|n] [|m] Hle; simpl in *;
    try done; try lia.
  - rewrite (IH 0 m); [done | lia].
  - apply IH. lia.
  - apply IH. lia.
Qed.

(** X9: The masked form the listing shows has 19 characters as soon as the
    secret has 12; of a secret of at most 4 characters it shows the whole
    secret, twice. *)
Theorem maskKey_shape s :
  ((12 ≤ String.length s)%nat → String.length (maskKey s) = 19) ∧
  ((String.length s ≤ 4)%nat → maskKey s = s +:+ "..." +:+ s).
Proof.
  unfold maskKey, sliceLast. split; intros Hlen.
  - rewrite !KeyFacts.length_append.
    rewrite length_substring0_long by done.
    rewrite length_substring_exact by lia. done.
  - rewrite substring0_short by lia.
    replace (String.length s - 4) with 0 by lia.
    by rewrite substring_all.
Qed.

Lemma maskKey_shape_witness :
  String.length (maskKey (generateKey sampleBytes)) = 19 ∧
  maskKey "abcd" = "abcd...abcd".
Proof.
  destruct (maskKey_shape (generateKey sampleBytes)) as [H1 _].
  destruct (maskKey_shape "abcd") as [_ H2].
  split; [apply H1 | apply H2]; vm_compute; lia.
Defined.

(** *** Updating twice *)

Lemma applyUpdates_idempotent updates now k :
  applyUpdates updates now (applyUpdates updates now k)
    = applyUpdates updates now k.
Proof.
  destruct updates as [? ? [?|] [?|] [?|] ? ? [?|] ? ?]; reflexivity.
Qed.

(** X10: Making the same update at the same instant a second time changes
    nothing more, and gets the same answer; an update that names none of
    the four properties only stamps [updatedAt]. *)
Theorem update_twice i updates now data :
  updateApiKey i updates now (updateApiKey i updates now data).2
    = updateApiKey i updates now data ∧
  (upd_name updates = None → upd_description updates = None →
   upd_permissions updates = None → upd_expiresAt updates = None →
   ∀ k, getApiKeyById i data = Some k →
        (updateApiKey i updates now data).1
          = Success (set_updatedAt (Some now) k)).
Proof.
  split.
  - unfold updateApiKey at 2 3.
    destruct (list_find (λ k, id k = i) data) as [[j k]|] eqn:Hfind;
      simpl; [|unfold updateApiKey; by rewrite Hfind].
    pose proof Hfind as (Hj & Hid & Hmin)%list_find_Some.
    unfold updateApiKey.
    assert (list_find (λ k, id k = i) (<[j := applyUpdates updates now k]> data)
            = Some (j, applyUpdates updates now k)) as ->.
    { apply list_find_Some. split; [|split].
      - apply list_lookup_insert_eq. by eapply lookup_lt_Some.
      - by destruct (KeyFacts.applyUpdates_protected updates now k)
          as (-> & _).
      - intros j' y Hj' Hlt. rewrite list_lookup_insert_ne in Hj' by lia.
        eauto. }
    by rewrite applyUpdates_idempotent, list_insert_insert_eq.
  - intros H1 H2 H3 H4 k (j & Hfind & _)%getApiKeyById_Some.
    unfold updateApiKey. rewrite Hfind. simpl. f_equal.
    unfold applyUpdates, allowedUpdates. simpl.
    unfold copyField. by rewrite H1, H2, H3, H4.
Qed.

Lemma update_twice_witness :
  (updateApiKey "id-2" noUpdates 500 expiringStore).1
  = Success
      {| id := "id-2"; key := generateKey sampleBytes; name := "t";
         description := ""; permissions := ["*"]; active := true;
         createdAt := 100; expiresAt := ExpiresAt 150; lastUsedAt := None;
         usageCount := 0; revokedAt := None; updatedAt := Some 500%Z;
         regeneratedAt := None |}.
Proof.
  destruct (update_twice "id-2" noUpdates 500 expiringStore) as [_ H].
  apply (H eq_refl eq_refl eq_refl eq_refl
           {| id := "id-2"; key := generateKey sampleBytes; name := "t";
              description := ""; permissions := ["*"]; active := true;
              createdAt := 100; expiresAt := ExpiresAt 150;
              lastUsedAt := None; usageCount := 0; revokedAt := None;
              updatedAt := None; regeneratedAt := None |}).
  reflexivity.
Defined.

(** *** What revoking, activating and regenerating leave alone *)

Lemma Forall2_alter_self {A} (R : A → A → Prop) (f : A → A) (j : nat)
    (l : list A) :
  (∀ x, R x x) → (∀ x, R x (f x)) → Forall2 R l (alter f j l).
Proof.
  intros Hrefl Hf. revert j.
  induction l as [|x l IH]; intros [|j]; simpl.
  - constructor.
  - constructor.
  - constructor; [apply Hf|].
    apply Forall_Forall2_diag, Forall_forall. auto.
  - constructor; [apply Hrefl | apply IH].
Qed.

Lemma alter_elsewhere i (f : ApiKeyRecord → ApiKeyRecord) j n k data :
  findIndexById i data = Some j → data !! n = Some k → id k ≠ i →
  alter f j data !! n = Some k.
Proof.
  intros (k0 & Hj & Hid)%KeyFacts.findIndexById_Some Hn Hne.
  rewrite list_lookup_alter_ne; [done|]. intros ->. congruence.
Qed.

(** X11: [revokeApiKey], [activateApiKey] and [regenerateApiKey] keep the
    number and the order of the records and, in every record, the id,
    name, description, permissions, expiry, usage and creation and update
    instants; a record with another id is left as it was; revoking and
    activating keep every secret, regenerating keeps every [active]
    flag. *)
Theorem status_changes_frame i now randomBytes data :
  Forall2 sameDescription data (revokeApiKey i now data).2 ∧
  Forall2 sameDescription data (activateApiKey i data).2 ∧
  Forall2 sameDescription data (regenerateApiKey i randomBytes now data).2 ∧
  (∀ n k, data !! n = Some k → id k ≠ i →
     (revokeApiKey i now data).2 !! n = Some k ∧
     (activateApiKey i data).2 !! n = Some k ∧
     (regenerateApiKey i randomBytes now data).2 !! n = Some k) ∧
  key <$> (revokeApiKey i now data).2 = key <$> data ∧
  key <$> (activateApiKey i data).2 = key <$> data ∧
  active <$> (regenerateApiKey i randomBytes now data).2 = active <$> data.
Proof.
  assert (∀ k, sameDescription k k) as Hrefl by (intros; repeat split).
  assert (Forall2 sameDescription data data) as Hsame
    by (apply Forall_Forall2_diag, Forall_forall; auto).
  unfold revokeApiKey, activateApiKey, regenerateApiKey.
  destruct (findIndexById i data) as [j|] eqn:Hidx; simpl;
    [|by split_and!].
  split_and!; try (apply Forall2_alter_self; [done | intros; repeat split]).
  - intros n k Hn Hne. split_and!; by eapply alter_elsewhere.
  - by apply KeyFacts.keys_alter.
  - by apply KeyFacts.keys_alter.
  - rewrite (list_fmap_alter active _ (λ x, x))
      by (apply Forall_forall; auto).
    by apply list_alter_id.
Qed.

Lemma status_changes_frame_witness :
  (regenerateApiKey "id-7" otherBytes 300 expiringStore).2 !! 0
    = expiringStore !! 0.
Proof.
  destruct (status_changes_frame "id-7" 300 otherBytes expiringStore)
    as (_ & _ & _ & H & _).
  destruct (H 0
              {| id := "id-2"; key := generateKey sampleBytes; name := "t";
                 description := ""; permissions := ["*"]; active := true;
                 createdAt := 100; expiresAt := ExpiresAt 150;
                 lastUsedAt := None; usageCount := 0; revokedAt := None;
                 updatedAt := None; regeneratedAt := None |})
    as (_ & _ & Hr); [reflexivity | discriminate | exact Hr].
Defined.

End KeyMore.

(** ** The authentication middlewares and the key-management routes *)

Module AuthFacts.
Import ApiKeyService Auth KeyStore KeyStoreMore.

(** *** masterKeyAuth and the routes it guards *)

Lemma masterKeyAuth_passes env header :
  developmentMode env = false →
  (∃ info, masterKeyAuth env header = Next info) ↔
  (∃ m, API_KEY env = Some m ∧ m ≠ "" ∧ header = Some m).
Proof.
  intros Hdev. unfold masterKeyAuth, missing. rewrite Hdev.
  destruct header as [h|]; simpl.
  - case_bool_decide as Hh; simpl.
    + split; [by intros [? [=]]|]. intros (m & _ & Hm & [= ->]). done.
    + case_bool_decide as Heq; split.
      * intros _. exists h. by rewrite <- Heq.
      * eauto.
      * by intros [? [=]].
      * intros (m & Hk & _ & [= ->]). by rewrite Hk in Heq.
  - split; [by intros [? [=]]|]. by intros (m & _ & _ & [=]).
Qed.

Lemma masterKeyAuth_rejections env header r :
  masterKeyAuth env header = Respond r →
  r = MISSING_API_KEY ∨ r = MASTER_KEY_REQUIRED.
Proof.
  unfold masterKeyAuth.
  destruct (developmentMode env); [done|].
  destruct (missing header); [intros [= <-]; by left|].
  case_bool_decide; [done|]. intros [= <-]. by right.
Qed.

(** X12: Outside development mode, a key-management request is handled
    exactly when its header is the configured, non-empty master key;
    otherwise it is answered 401 MISSING_API_KEY or
    403 MASTER_KEY_REQUIRED and the store is not written, whatever the
    request and even with the secret of an active generated key. *)
Theorem key_routes_need_the_master_key env header req now data :
  developmentMode env = false →
  ((∃ a, (AuthRoutes.handle env header req now data).1
           = AuthRoutes.Answered a) ↔
   (∃ m, API_KEY env = Some m ∧ m ≠ "" ∧ header = Some m)) ∧
  (∀ r, (AuthRoutes.handle env header req now data).1
          = AuthRoutes.Rejected r →
        (AuthRoutes.handle env header req now data).2 = data ∧
        (r = MISSING_API_KEY ∨ r = MASTER_KEY_REQUIRED)).
Proof.
  intros Hdev. pose proof (masterKeyAuth_passes env header Hdev) as Hpass.
  unfold AuthRoutes.handle.
  destruct (masterKeyAuth env header) as [info|r0] eqn:Hauth.
  - assert (∃ m, API_KEY env = Some m ∧ m ≠ "" ∧ header = Some m) as Hm
      by (apply Hpass; eauto).
    split.
    + split; [done|]. intros _.
      destruct req; simpl;
        match goal with
        | |- ∃ a, (let '(_, _) := ?x in _).1 = _ => destruct x; simpl; eauto
        | _ => eauto
        end.
    + intros r. destruct req; simpl;
        match goal with
        | |- (let '(_, _) := ?x in _).1 = _ → _ => by destruct x
        | _ => done
        end.
  - split.
    + simpl. split; [by intros [? [=]]|].
      intros Hm. apply Hpass in Hm as [? [=]].
    + simpl. intros r [= <-]. split; [done|].
      by eapply masterKeyAuth_rejections.
Qed.

Lemma key_routes_need_the_master_key_witness :
  AuthRoutes.handle sampleEnv (Some (generateKey sampleBytes))
    (AuthRoutes.DeleteKey "id-2") 200 expiringStore
  = (AuthRoutes.Rejected MASTER_KEY_REQUIRED, expiringStore).
Proof.
  destruct (key_routes_need_the_master_key sampleEnv
              (Some (generateKey sampleBytes)) (AuthRoutes.DeleteKey "id-2")
              200 expiringStore eq_refl) as [_ H].
  destruct (H MASTER_KEY_REQUIRED eq_refl) as [Hd _].
  apply injective_projections; [reflexivity | exact Hd].
Defined.

(** *** What the answers show of a secret *)

(** X13: The answers to "get" and "list" show every secret in its masked
    form, under the id of its record and in the order of the store; the
    answer to an update carries the record with its secret in full. *)
Theorem key_answers_and_secrets i body now data :
  (∀ v, ApiKeyController.getApiKey i data = ApiKeyController.Found v →
        ∃ k, getApiKeyById i data = Some k ∧ v_id v = i ∧
             v_key v = maskKey (key k)) ∧
  (∃ vs, ApiKeyController.listApiKeys data
           = ApiKeyController.Listed vs (length data) ∧
         v_id <$> vs = id <$> data ∧
         v_key <$> vs = (λ k, maskKey (key k)) <$> data) ∧
  (∀ k', (ApiKeyController.updateApiKey i body now data).1
           = ApiKeyController.Updated k' →
         ∃ k, getApiKeyById i data = Some k ∧ key k' = key k).
Proof.
  split_and!.
  - intros v. unfold ApiKeyController.getApiKey.
    destruct (getApiKeyById i data) as [k|] eqn:Hget; [|done].
    intros [= <-]. exists k. split_and!; [done| |done]. simpl.
    by apply KeyMore.getApiKeyById_Some in Hget as (_ & _ & _ & ? & _).
  - eexists. unfold ApiKeyController.listApiKeys. split_and!.
    + f_equal. unfold listApiKeys. by rewrite length_fmap.
    + unfold listApiKeys. by rewrite <- list_fmap_compose.
    + apply KeyFacts.listing_masks.
  - intros k'. unfold ApiKeyController.updateApiKey, updateApiKey.
    unfold getApiKeyById.
    destruct (list_find (λ k, id k = i) data) as [[j k]|]; simpl; [|done].
    intros [= <-]. exists k. split; [done|].
    by destruct (KeyFacts.applyUpdates_protected
                   (mkUpdates None None (upd_name body) (upd_description body)
                      (upd_permissions body) None None (upd_expiresAt body)
                      None None) now k) as (_ & ? & _).
Qed.

Lemma key_answers_and_secrets_witness :
  ∃ k', (ApiKeyController.updateApiKey "id-2" noUpdates 500 expiringStore).1
          = ApiKeyController.Updated k' ∧
        key k' = generateKey sampleBytes.
Proof.
  destruct (key_answers_and_secrets "id-2" noUpdates 500 expiringStore)
    as (_ & _ & H).
  eexists. split; [reflexivity|].
  destruct (H _ eq_refl) as (k & Hget & Hkey).
  rewrite Hkey. vm_compute in Hget. by injection Hget as <-.
Defined.

(** X14: A creation request without a name is answered 400 and writes
    nothing, so the default name of the service is never given through
    the route; with a name, one active, unused record of that name is
    appended and the answer carries its id and its secret in full. *)
Theorem creation_needs_a_name body uuid randomBytes now data :
  (ApiKeyController.noName body = true →
   ApiKeyController.createApiKey body uuid randomBytes now data
     = (ApiKeyController.BadRequest "El nombre es requerido", data)) ∧
  (∀ n, opt_name body = Some n → n ≠ "" →
     ∃ v k,
       ApiKeyController.createApiKey body uuid randomBytes now data
         = (ApiKeyController.Created v, data ++ [k]) ∧
       name k = n ∧ id k = uuid ∧ key k = generateKey randomBytes ∧
       active k = true ∧ usageCount k = 0%Z ∧
       ApiKeyController.c_name v = n ∧ ApiKeyController.c_id v = uuid ∧
       ApiKeyController.c_key v = generateKey randomBytes).
Proof.
  unfold ApiKeyController.createApiKey. split.
  - by intros ->.
  - intros n Hn Hne. unfold ApiKeyController.noName. rewrite Hn.
    rewrite bool_decide_eq_false_2 by done.
    eexists _, _. split; [reflexivity|]. simpl.
    by rewrite bool_decide_eq_false_2.
Qed.

Lemma creation_needs_a_name_witness :
  ApiKeyController.createApiKey noOptions "id-3" otherBytes 100 expiringStore
  = (ApiKeyController.BadRequest "El nombre es requerido", expiringStore).
Proof.
  destruct (creation_needs_a_name noOptions "id-3" otherBytes 100
              expiringStore) as [H _].
  apply H. reflexivity.
Defined.

(** *** apiKeyAuth *)

(** X15: [apiKeyAuth] writes the store only when it lets a generated key
    pass, and then records one use of the active, unexpired record that
    holds the secret; it answers only 401 MISSING_API_KEY or
    403 INVALID_API_KEY; and a header [masterKeyAuth] lets pass, it lets
    pass as master. *)
Theorem apiKeyAuth_outcomes env now data header :
  (∀ r, (apiKeyAuth env now data header).1 = Respond r →
        (apiKeyAuth env now data header).2 = data ∧
        (r = MISSING_API_KEY ∨ r = INVALID_API_KEY)) ∧
  (∀ info, (apiKeyAuth env now data header).1 = Next info →
     ∃ i, info = Some i ∧
       ((isMaster i = true ∧ (apiKeyAuth env now data header).2 = data) ∨
        (∃ j k, data !! j = Some k ∧ header = Some (key k) ∧
                active k = true ∧ isExpired now k = false ∧
                i = StoredInfo (recordUse now k) ∧
                (apiKeyAuth env now data header).2
                  = <[j := recordUse now k]> data))) ∧
  (∀ i, masterKeyAuth env header = Next i →
     ∃ i', apiKeyAuth env now data header = (Next (Some i'), data) ∧
           isMaster i' = true).
Proof.
  split_and!.
  - intros r. unfold apiKeyAuth.
    destruct (developmentMode env); [done|].
    destruct header as [apiKey|]; [|intros [= <-]; auto].
    case_bool_decide; [intros [= <-]; auto|].
    destruct (validateApiKey env now data apiKey) as [[info|] data'] eqn:Hv;
      [done|].
    intros [= <-]. simpl.
    apply KeyMore.validate_inversion in Hv as [-> _]. auto.
  - intros info. unfold apiKeyAuth.
    destruct (developmentMode env).
    { intros [= <-]. eexists. split; [done|]. by left. }
    destruct header as [apiKey|]; [|done].
    case_bool_decide; [done|].
    destruct (validateApiKey env now data apiKey) as [[i|] data'] eqn:Hv;
      [|done].
    intros [= <-]. exists i. split; [done|]. simpl.
    apply KeyMore.validate_inversion in Hv
      as [(-> & _ & _ & ->) | (j & k & Hj & Hk & Ha & He & -> & -> & _)].
    + by left.
    + right. exists j, k. by rewrite Hk.
  - intros i. unfold masterKeyAuth, apiKeyAuth.
    destruct (developmentMode env); [eauto|].
    unfold missing. destruct header as [apiKey|]; [|done].
    case_bool_decide; [done|].
    case_bool_decide as Hm; [|done]. intros _.
    unfold validateApiKey, matchesMaster. rewrite <- Hm.
    rewrite bool_decide_eq_false_2, bool_decide_eq_true_2 by done.
    simpl. eauto.
Qed.

Lemma apiKeyAuth_outcomes_witness :
  (apiKeyAuth sampleEnv 400 expiringStore (Some (generateKey sampleBytes))).2
  = expiringStore.
Proof.
  destruct (apiKeyAuth_outcomes sampleEnv 400 expiringStore
              (Some (generateKey sampleBytes))) as (H & _ & _).
  by destruct (H INVALID_API_KEY eq_refl).
Defined.

(** *** requirePermission *)

(** X16: [requirePermission] lets an authenticated request pass exactly when
    its key is the master key, holds '*' or holds one of the required
    permissions, and answers 403 INSUFFICIENT_PERMISSIONS otherwise; so
    with no permission required ([[]]) only the master key and the keys
    holding '*' pass. Without [req.apiKeyInfo] it answers
    401 NOT_AUTHENTICATED. *)
Theorem requirePermission_grants req info :
  (requirePermission req (Some info) = Next (Some info) ↔
   isMaster info = true ∨ "*" ∈ infoPermissions info ∨
   ∃ p, p ∈ asArray req ∧ p ∈ infoPermissions info) ∧
  (requirePermission req (Some info) = Next (Some info) ∨
   requirePermission req (Some info) = Respond INSUFFICIENT_PERMISSIONS) ∧
  (requirePermission (Many []) (Some info) = Next (Some info) ↔
   isMaster info = true ∨ "*" ∈ infoPermissions info) ∧
  requirePermission req None = Respond NOT_AUTHENTICATED.
Proof.
  assert (∀ r, requirePermission r (Some info) = Next (Some info) ↔
            isMaster info = true ∨ "*" ∈ infoPermissions info ∨
            ∃ p, p ∈ asArray r ∧ p ∈ infoPermissions info) as Hiff.
  { intros r. unfold requirePermission, includes.
    destruct (isMaster info); simpl; [by split; auto|].
    case_bool_decide as Hstar; simpl; [by split; auto|].
    destruct (existsb _ (asArray r)) eqn:Hex.
    - split; [|done]. intros _. right; right.
      apply existsb_exists in Hex as (p & Hp & Hin).
      exists p. split; [by apply list_elem_of_In|].
      by apply bool_decide_eq_true_1 in Hin.
    - split; [done|]. intros [? | [? | (p & Hp & Hin)]]; [done..|].
      assert (existsb (λ p, bool_decide (p ∈ infoPermissions info))
                (asArray r) = true) as Hex'.
      { apply existsb_exists. exists p.
        split; [by apply list_elem_of_In | by apply bool_decide_eq_true_2]. }
      congruence. }
  split_and!.
  - apply Hiff.
  - unfold requirePermission.
    destruct (isMaster info || includes "*" (infoPermissions info)); [auto|].
    destruct (existsb _ _); auto.
  - rewrite Hiff. simpl. split; [|tauto].
    intros [? | [? | (p & Hp & _)]]; [auto..|]. by apply elem_of_nil in Hp.
  - done.
Qed.

(** *** optionalAuth *)

(** X17: [optionalAuth] lets a request without a header pass with no
    [req.apiKeyInfo], development mode or not, so that a following
    [requirePermission] answers 401; with a header it does what
    [apiKeyAuth] does; it never answers 401 MISSING_API_KEY. *)
Theorem optionalAuth_outcomes env now data header req :
  (missing header = true →
   optionalAuth env now data header = (Next None, data) ∧
   requirePermission req None = Respond NOT_AUTHENTICATED) ∧
  (missing header = false →
   optionalAuth env now data header = apiKeyAuth env now data header) ∧
  (optionalAuth env now data header).1 ≠ Respond MISSING_API_KEY.
Proof.
  unfold optionalAuth. split_and!.
  - by intros ->.
  - by intros ->.
  - destruct (missing header) eqn:Hmiss; [done|].
    unfold apiKeyAuth, missing in *.
    destruct (developmentMode env); [done|].
    destruct header as [apiKey|]; [|done].
    rewrite Hmiss.
    by destruct (validateApiKey env now data apiKey) as [[?|] ?].
Qed.

Lemma optionalAuth_outcomes_witness :
  optionalAuth (mkEnv None (Some "development")) 100 expiringStore None
    = (Next None, expiringStore) ∧
  apiKeyAuth (mkEnv None (Some "development")) 100 expiringStore None
    = (Next (Some DevelopmentInfo), expiringStore).
Proof.
  destruct (optionalAuth_outcomes (mkEnv None (Some "development")) 100
              expiringStore None (One "messages:send")) as ([H _] & _ & _);
    [reflexivity|].
  split; [exact H | reflexivity].
Defined.

End AuthFacts.

(** ** The error handler *)

Module ErrorFacts.
Import ApiKeyService ErrorHandler.

(** X18: In production the answer never carries the stack, and it carries the
    message of the error only when the error is a ValidationError
    (as [details], status 400) or mentions WhatsApp (status 503,
    WHATSAPP_ERROR); every other error is answered with the fixed text
    'Error interno del servidor' under its status code, 500 when it has
    none or 0. Two such errors with the same status code get the same
    answer. *)
Theorem production_hides_details env err :
  NODE_ENV env = Some "production" →
  shownStack (errorHandler env err) = None ∧
  (name err = "ValidationError" →
   errorHandler env err
     = mkBody 400 (Some "Error de validación") None (message err) None) ∧
  (name err ≠ "ValidationError" → mentionsWhatsApp err = true →
   errorHandler env err
     = mkBody 503 (message err) (Some "WHATSAPP_ERROR") None None) ∧
  (name err ≠ "ValidationError" → mentionsWhatsApp err = false →
   errorHandler env err
     = mkBody (statusOr500 err) (Some "Error interno del servidor") None None
         None ∧
   status (errorHandler env err) ≠ 0%Z ∧
   ∀ err', name err' ≠ "ValidationError" → mentionsWhatsApp err' = false →
           statusCode err' = statusCode err →
           errorHandler env err' = errorHandler env err).
Proof.
  intros Hprod. unfold errorHandler. rewrite Hprod. split_and!.
  - case_bool_decide; [done|]. by destruct (mentionsWhatsApp err).
  - intros Hn. by rewrite bool_decide_eq_true_2.
  - intros Hn ->. by rewrite bool_decide_eq_false_2.
  - intros Hn ->. rewrite bool_decide_eq_false_2 by done. simpl.
    split_and!; [done| |].
    + unfold statusOr500. destruct (statusCode err) as [c|]; [|done].
      by case_bool_decide.
    + intros err' Hn' -> Hc. rewrite bool_decide_eq_false_2 by done. simpl.
      unfold statusOr500. by rewrite Hc.
Qed.

Lemma production_hides_details_witness :
  errorHandler (mkEnv (Some "k") (Some "production"))
    (mkErr "TypeError" (Some "phones is not iterable") None
       (Some "at checkBulkNumbers"))
  = mkBody 500 (Some "Error interno del servidor") None None None.
Proof.
  destruct (production_hides_details (mkEnv (Some "k") (Some "production"))
              (mkErr "TypeError" (Some "phones is not iterable") None
                 (Some "at checkBulkNumbers")) eq_refl) as (_ & _ & _ & H).
  destruct H as (H & _); [discriminate | reflexivity | exact H].
Defined.

(** Outside production the default answer carries the message and the
    stack of the error as they are. *)
Lemma development_shows_details env err :
  NODE_ENV env ≠ Some "production" →
  name err ≠ "ValidationError" → mentionsWhatsApp err = false →
  errorHandler env err
    = mkBody (statusOr500 err) (message err) None None (stack err).
Proof.
  intros Hdev Hn Hm. unfold errorHandler. rewrite Hm.
  by rewrite !bool_decide_eq_false_2.
Qed.

End ErrorFacts.

(** ** Phone numbers *)

Module PhoneFacts.
Import WhatsAppService Validators.

Lemma digitsOnly_allDigits s : allDigits (digitsOnly s) = true.
Proof.
  induction s as [|c s IH]; simpl; [done|].
  destruct (isDigit c) eqn:Hc; simpl; [|done]. by rewrite Hc.
Qed.

Lemma digitsOnly_id s : allDigits s = true → digitsOnly s = s.
Proof.
  induction s as [|c s IH]; simpl; [done|].
  intros [Hc Hs]%andb_true_iff. rewrite Hc. by rewrite IH.
Qed.

Lemma digitsOnly_append a b :
  digitsOnly (a +:+ b) = digitsOnly a +:+ digitsOnly b.
Proof.
  induction a as [|c a IH]; simpl; [done|].
  destruct (isDigit c); simpl; by rewrite IH.
Qed.

Lemma endsWith_digits s : allDigits s = true → endsWith "@c.us" s = false.
Proof.
  induction s as [|c s IH]; simpl; [done|].
  intros [Hc Hs]%andb_true_iff. rewrite IH by done.
  rewrite bool_decide_eq_false_2; [done|].
  intros [= -> _]. done.
Qed.

Lemma append_inv_r (a b s : string) : a +:+ s = b +:+ s →
  String.length a = String.length b → a = b.
Proof.
  revert b. induction a as [|c a IH]; intros [|d b]; simpl; try done.
  intros [= -> H] [= Hlen]. f_equal. by apply IH.
Qed.

Lemma append_empty_r (s : string) : s +:+ "" = s.
Proof.
  induction s as [|c s IH]; [done|].
  change (String c (s +:+ "") = String c s). by rewrite IH.
Qed.

Lemma format_digits p : formatPhoneNumber p = digitsOnly p +:+ "@c.us".
Proof.
  unfold formatPhoneNumber.
  by rewrite endsWith_digits by apply digitsOnly_allDigits.
Qed.

Lemma formatPhoneNumber_digits p :
  phonePattern p = true → formatPhoneNumber p = p +:+ "@c.us".
Proof.
  intros Hq. unfold phonePattern in Hq.
  apply andb_true_iff in Hq as [Hq _].
  apply andb_true_iff in Hq as [Hq _].
  by rewrite format_digits, digitsOnly_id.
Qed.

(** X19: The chat id of a phone number is always its digits followed by
    '@c.us' (the test for an existing suffix never succeeds), so
    formatting twice is formatting once; for a number the validators
    accept (10 to 15 digits) it is the number itself followed by
    '@c.us', and two accepted numbers with the same chat id are the same
    number. *)
Theorem formatPhoneNumber_shape p :
  formatPhoneNumber p = digitsOnly p +:+ "@c.us" ∧
  formatPhoneNumber (formatPhoneNumber p) = formatPhoneNumber p ∧
  (phonePattern p = true → formatPhoneNumber p = p +:+ "@c.us") ∧
  (∀ p', digitsOnly p = digitsOnly p' →
         formatPhoneNumber p = formatPhoneNumber p') ∧
  (∀ p', phonePattern p = true → phonePattern p' = true →
         formatPhoneNumber p = formatPhoneNumber p' → p = p').
Proof.
  assert (∀ q, phonePattern q = true → digitsOnly q = q) as Hpat.
  { intros q Hq. unfold phonePattern in Hq.
    apply andb_true_iff in Hq as [Hq _].
    apply andb_true_iff in Hq as [Hq _]. by apply digitsOnly_id. }
  split_and!.
  - apply format_digits.
  - rewrite !format_digits, digitsOnly_append.
    rewrite (digitsOnly_id (digitsOnly p)) by apply digitsOnly_allDigits.
    change (digitsOnly "@c.us") with "".
    by rewrite append_empty_r.
  - intros Hp. by rewrite format_digits, Hpat.
  - intros p' Heq. by rewrite !format_digits, Heq.
  - intros p' Hp Hp'. rewrite !format_digits, (Hpat p), (Hpat p') by done.
    intros Heq. apply append_inv_r in Heq; [done|].
    apply (f_equal String.length) in Heq.
    rewrite !KeyFacts.length_append in Heq. lia.
Qed.

Lemma formatPhoneNumber_shape_witness :
  formatPhoneNumber "573001234567" = "573001234567@c.us" ∧
  formatPhoneNumber "+57 (300) 123-4567" = formatPhoneNumber "573001234567".
Proof.
  destruct (formatPhoneNumber_shape "573001234567") as (_ & _ & H & H' & _).
  split; [by apply H | symmetry; by apply H'].
Defined.

End PhoneFacts.

(** ** More on sending *)

Module BulkMore.
Import WhatsAppService Validators BulkTrace MoreSamples Samples.

Lemma sleeps_at_most recipients delay todo :
  length (filter (λ a, isSleep a = true)
            (concat (step recipients delay <$> todo))) ≤ length todo.
Proof.
  induction todo as [|p todo IH]; [done|].
  change (concat (step recipients delay <$> p :: todo))
    with (SendTo p :: ((if notLast p recipients then [Sleep delay] else [])
            ++ concat (step recipients delay <$> todo))).
  rewrite filter_cons_False by done.
  rewrite filter_app, length_app.
  destruct (notLast p recipients).
  - rewrite filter_cons_True by done. simpl. lia.
  - simpl. lia.
Qed.

Lemma sleeps_are_the_delay recipients delay todo :
  Forall (λ a, isSleep a = true → a = Sleep delay)
    (concat (step recipients delay <$> todo)).
Proof.
  induction todo as [|p todo IH]; [constructor|].
  change (concat (step recipients delay <$> p :: todo))
    with (SendTo p :: ((if notLast p recipients then [Sleep delay] else [])
            ++ concat (step recipients delay <$> todo))).
  constructor; [done|]. apply Forall_app. split; [|done].
  destruct (notLast p recipients); repeat constructor.
Qed.

Section Sending.
Context {C : Type}.
Variable clientSendMessage : C → string → string → C * (string + string).
Variable uuidv4 : C → C * string.
Variable clock : C → Z.
Variable during : Z → @Service C → @Service C.
Variable isLength : string → nat → nat → bool.

Local Abbreviation sendMessage := (sendMessage clientSendMessage uuidv4 clock).
Local Abbreviation turn := (turn clientSendMessage uuidv4 clock during).
Local Abbreviation sendBulkMessages :=
  (sendBulkMessages clientSendMessage uuidv4 clock during).


Lemma loop_not_ready recipients message delay todo st :
  (∀ ms s, isReady s = false → isReady (during ms s) = false) →
  isReady (service st) = false →
  results (foldl (turn recipients message delay) st todo)
    = results st ++ ((λ p, NotSent p notConnected) <$> todo).
Proof.
  intros Hduring. revert st.
  induction todo as [|p todo IH]; intros st Hst; simpl.
  - by rewrite app_nil_r.
  - rewrite IH.
    + rewrite BulkFacts.turn_results.
      unfold WhatsAppService.sendMessage. rewrite Hst. simpl.
      by rewrite <- app_assoc.
    + unfold WhatsAppService.turn, WhatsAppService.sendMessage.
      rewrite Hst. simpl.
      destruct (notLast p recipients); simpl; auto.
Qed.

(** X21: While the service is not ready, and as long as nothing that happens
    during the sleeps makes it ready, a bulk send fails every recipient
    with 'WhatsApp no está conectado', in list order, without giving
    up. *)
Theorem bulk_send_while_disconnected recipients message delay sv :
  (∀ ms s, isReady s = false → isReady (during ms s) = false) →
  isReady sv = false →
  results (sendBulkMessages recipients message delay sv)
    = (λ p, NotSent p "WhatsApp no está conectado") <$> recipients ∧
  MessageController.successful
    (MessageController.sendBulkMessages clientSendMessage uuidv4 clock during
       recipients message delay sv).2 = 0 ∧
  MessageController.failed
    (MessageController.sendBulkMessages clientSendMessage uuidv4 clock during
       recipients message delay sv).2 = length recipients.
Proof.
  intros Hduring Hsv.
  assert (results (sendBulkMessages recipients message delay sv)
          = (λ p, NotSent p "WhatsApp no está conectado") <$> recipients)
    as Hres.
  { unfold WhatsAppService.sendBulkMessages.
    by rewrite loop_not_ready. }
  split_and!; [done | |].
  - unfold MessageController.sendBulkMessages. simpl. rewrite Hres.
    clear. induction recipients as [|p ps IH]; [done|].
    rewrite fmap_cons, filter_cons_False by done. exact IH.
  - unfold MessageController.sendBulkMessages. simpl. rewrite Hres.
    clear. induction recipients as [|p ps IH]; [done|].
    rewrite fmap_cons, filter_cons_True by done. simpl. by rewrite IH.
Qed.

(** X22: A send while the service is not ready throws
    'WhatsApp no está conectado' without calling the client, and the
    error handler answers that error with 503 WHATSAPP_ERROR and its
    message, in production too. *)
Theorem not_connected_is_503 env phone message sv trace :
  isReady sv = false →
  sendMessage phone message sv = (sv, Thrown "WhatsApp no está conectado") ∧
  ErrorHandler.errorHandler env
    (ErrorHandler.newError "WhatsApp no está conectado" trace)
  = ErrorHandler.mkBody 503 (Some "WhatsApp no está conectado")
      (Some "WHATSAPP_ERROR") None None.
Proof.
  intros Hsv. split.
  - unfold WhatsAppService.sendMessage. by rewrite Hsv.
  - reflexivity.
Qed.

End Sending.


Lemma bulk_send_while_disconnected_witness :
  results (sendBulkMessages (refusing "x") countingUuid countingClock idle
             ["573000000001"; "573000000002"] "hola" None
             (mkService false 0))
  = [NotSent "573000000001" "WhatsApp no está conectado";
     NotSent "573000000002" "WhatsApp no está conectado"].
Proof.
  destruct (bulk_send_while_disconnected (refusing "x") countingUuid
              countingClock idle
              ["573000000001"; "573000000002"] "hola" None
              (mkService false 0)) as (H & _).
  - intros ms s Hs. exact Hs.
  - reflexivity.
  - exact H.
Defined.

Lemma not_connected_is_503_witness :
  sendMessage (refusing "x") countingUuid countingClock "573000000001" "hola"
    (mkService false 0)
  = (mkService false 0, Thrown "WhatsApp no está conectado").
Proof.
  destruct (not_connected_is_503 (refusing "x") countingUuid countingClock
              (ApiKeyService.mkEnv None (Some "production"))
              "573000000001" "hola" (mkService false 0) "at sendMessage"
              eq_refl) as [H _].
  exact H.
Defined.

End BulkMore.

(** ** The session *)

Module SessionFacts.
Import WebhookRoutes Session SessionRuns.

Lemma session_run_snoc steps st : run (steps ++ [st]) = apply (run steps) st.
Proof. unfold run. by rewrite foldl_app. Qed.

Lemma session_run_app pre post : run (pre ++ post) = foldl apply (run pre) post.
Proof. unfold run. by rewrite foldl_app. Qed.

Lemma hasClient_initialized steps :
  hasClient (run steps) = true ↔ Initialize ∈ steps.
Proof.
  induction steps as [|st steps IH] using rev_ind.
  - split; [done|]. intros H. by apply elem_of_nil in H.
  - rewrite session_run_snoc, elem_of_app, list_elem_of_singleton, <- IH.
    destruct st as [|ev|resolved|resolved]; simpl.
    + split; auto.
    + destruct ev; simpl; split; auto; intros [?|?]; done.
    + unfold logout.
      destruct (hasClient (run steps)) eqn:Hc, resolved; simpl;
        rewrite ?Hc; split; auto; intros [?|?]; done.
    + unfold destroy.
      destruct (hasClient (run steps)) eqn:Hc, resolved; simpl;
        rewrite ?Hc; split; auto; intros [?|?]; done.
Qed.

Lemma stays_down s post :
  isReady s = false → Forall notReady post →
  isReady (foldl apply s post) = false.
Proof.
  intros Hs Hpost. revert s Hs.
  induction Hpost as [|st post Hst _ IH]; intros s Hs; [done|].
  simpl. apply IH.
  destruct st as [|ev|resolved|resolved]; simpl.
  - done.
  - by destruct ev.
  - unfold logout. by destruct (hasClient s && resolved).
  - unfold destroy. by destruct (hasClient s && resolved).
Qed.

(** X23: Whatever happens to the session, its status is one of
    'disconnected', 'qr_pending', 'connected', 'authenticated' and
    'auth_failed'; while it is 'connected' the service is ready and
    [getStatus] reports no QR code; the service is ready only after a
    [ready] event of the client; and it has a client exactly when
    [initialize] has been called. *)
Theorem session_invariant steps :
  let s := run steps in
  status s ∈ ["disconnected"; "qr_pending"; "connected"; "authenticated";
              "auth_failed"] ∧
  (status s = "connected" →
   isReady s = true ∧ qrCode s = None ∧ g_hasQR (getStatus s) = false) ∧
  (isReady s = true → Client Ready ∈ steps) ∧
  (hasClient s = true ↔ Initialize ∈ steps).
Proof.
  cbv zeta. split; [|split; [|split]].
  - induction steps as [|st steps IH] using rev_ind.
    + rewrite !elem_of_cons. auto.
    + rewrite session_run_snoc. revert IH. generalize (run steps). intros s IH.
      assert (∀ x : string,
                x = "disconnected" ∨ x = "qr_pending" ∨ x = "connected" ∨
                x = "authenticated" ∨ x = "auth_failed" →
                x ∈ ["disconnected"; "qr_pending"; "connected";
                     "authenticated"; "auth_failed"]) as Hin.
      { intros x Hx. rewrite !elem_of_cons. tauto. }
      destruct st as [|ev|resolved|resolved]; simpl.
      * done.
      * destruct ev; simpl; try done; apply Hin; tauto.
      * unfold logout. destruct (hasClient s && resolved); simpl;
          try done; apply Hin; tauto.
      * unfold destroy. destruct (hasClient s && resolved); simpl;
          try done; apply Hin; tauto.
  - assert (status (run steps) = "connected" →
            isReady (run steps) = true ∧ qrCode (run steps) = None) as H.
    { induction steps as [|st steps IH] using rev_ind; [done|].
      rewrite session_run_snoc. revert IH. generalize (run steps). intros s IH.
      destruct st as [|ev|resolved|resolved]; simpl.
      - done.
      - destruct ev; simpl; try done.
      - unfold logout. by destruct (hasClient s && resolved).
      - unfold destroy. by destruct (hasClient s && resolved). }
    intros Hc. destruct (H Hc) as [Hr Hq]. split_and!; try done.
    unfold getStatus. simpl. by rewrite Hq.
  - induction steps as [|st steps IH] using rev_ind; [done|].
    rewrite session_run_snoc, elem_of_app, list_elem_of_singleton.
    revert IH. generalize (run steps). intros s IH.
    destruct st as [|ev|resolved|resolved]; simpl.
    + auto.
    + destruct ev; simpl; auto; done.
    + unfold logout. destruct (hasClient s && resolved); simpl; auto; done.
    + unfold destroy. destruct (hasClient s && resolved); simpl; auto; done.
  - apply hasClient_initialized.
Qed.

(** X24: After a [disconnected] event, or a [logout] or [destroy] that
    resolved on an initialized service, the service is not ready, and it
    stays so until the client raises [ready]: a QR code or an
    authentication does not make it ready. *)
Theorem down_until_ready pre st post :
  (∃ reason, st = Client (Disconnected reason)) ∨
  (Initialize ∈ pre ∧ (st = Logout true ∨ st = Destroy true)) →
  Forall notReady post →
  status (run (pre ++ [st])) = "disconnected" ∧
  isReady (run (pre ++ st :: post)) = false.
Proof.
  intros Hst Hpost.
  assert (isReady (apply (run pre) st) = false
          ∧ status (apply (run pre) st) = "disconnected") as [Hr Hs].
  { destruct Hst as [[reason ->]|[Hinit Hst]]; [done|].
    apply hasClient_initialized in Hinit.
    destruct Hst as [-> | ->]; simpl.
    - unfold logout. by rewrite Hinit.
    - unfold destroy. by rewrite Hinit. }
  split.
  - by rewrite session_run_snoc.
  - rewrite (session_run_app pre (st :: post)). simpl. by apply stays_down.
Qed.

Lemma down_until_ready_witness :
  isReady (run ([Initialize; Client (Qr "2@abc"); Client Authenticated;
                 Client Ready]
                ++ Logout true
                   :: [Client (Qr "2@def"); Client Authenticated])) = false.
Proof.
  destruct (down_until_ready
              [Initialize; Client (Qr "2@abc"); Client Authenticated;
               Client Ready]
              (Logout true)
              [Client (Qr "2@def"); Client Authenticated]) as [_ H].
  - right. split; [|by left]. apply elem_of_cons. by left.
  - repeat constructor; discriminate.
  - exact H.
Defined.

End SessionFacts.

(** ** Checking numbers *)

Module ContactFacts.
Import WhatsAppService ContactController MoreSamples.

Section Contacts.
Context {C : Type}.
Variable isRegisteredUser : C → string → C * (bool + string).
Variable meanwhile : @Service C → @Service C.

Local Abbreviation isRegistered := (isRegistered isRegisteredUser meanwhile).
Local Abbreviation check := (check isRegisteredUser meanwhile).
Local Abbreviation checkBulkNumbers :=
  (checkBulkNumbers isRegisteredUser meanwhile).

Local Abbreviation sound :=
  (λ e : CheckEntry, e_error e ≠ None → e_isRegistered e = false).

Lemma check_entries phones st :
  e_phone <$> (foldl check st phones).2 = (e_phone <$> st.2) ++ phones ∧
  (Forall sound st.2 → Forall sound (foldl check st phones).2).
Proof.
  revert st. induction phones as [|p phones IH]; intros st; simpl.
  - by rewrite app_nil_r.
  - assert (∃ sv1 entry, check st p = (sv1, st.2 ++ [entry])
            ∧ e_phone entry = p
            ∧ (e_error entry ≠ None → e_isRegistered entry = false))
      as (sv1 & entry & Heq & Hp & Hs).
    { unfold ContactController.check.
      destruct (ContactController.isRegistered _ _ p st.1) as [sv1 [b|e]];
        eexists _, _; split_and!; done. }
    rewrite Heq. destruct (IH (sv1, st.2 ++ [entry])) as [E H]. rewrite E.
    simpl. rewrite fmap_app. simpl. rewrite Hp, <- app_assoc. split; [done|].
    intros Hall. apply H. simpl. apply Forall_app. split; [done|].
    by constructor.
Qed.

(** X25: The report of a bulk check has one entry per number asked, in the
    order asked; [total] is their number and [registered] and
    [notRegistered] add up to it; a number whose lookup failed carries
    the error and counts as not registered. *)
Theorem check_bulk_report phones sv :
  let rep := (checkBulkNumbers phones sv).2 in
  e_phone <$> results rep = phones ∧
  total rep = length phones ∧
  registered rep + notRegistered rep = total rep ∧
  registered rep
    = length (filter (λ e, e_isRegistered e = true) (results rep)) ∧
  Forall (λ e, e_error e ≠ None → e_isRegistered e = false) (results rep).
Proof.
  unfold ContactController.checkBulkNumbers.
  destruct (check_entries phones (sv, [])) as [E H].
  destruct (foldl _ _ phones) as [sv' entries]. simpl in *.
  split_and!; try done.
  - pose proof (length_filter (λ e, e_isRegistered e = true) entries).
    apply (f_equal length) in E. rewrite length_fmap in E. lia.
  - apply H. constructor.
Qed.

Lemma check_not_ready phones sv entries :
  isReady sv = false →
  foldl check (sv, entries) phones
  = (sv, entries
         ++ ((λ p, mkCheckEntry p false (Some notConnected)) <$> phones)).
Proof.
  intros Hsv. revert entries.
  induction phones as [|p phones IH]; intros entries; simpl.
  - by rewrite app_nil_r.
  - unfold ContactController.check at 2.
    unfold ContactController.isRegistered. simpl. rewrite Hsv. simpl.
    rewrite IH. by rewrite <- app_assoc.
Qed.


End Contacts.


End ContactFacts.

(** ** Subscriptions and deliveries *)

Module HubMore.
Import WhatsAppService.

(** Subscriptions are kept per event, in the order made: after [on], an
    [emit] of the event runs the earlier handlers first and the new one
    last, and only when none of the earlier ones threw; an [emit] of
    another event is not affected; an event nobody subscribed to is
    emitted without effect. *)
Theorem subscriptions_are_per_event {W D : Type} event other
    (h : @handler W D) handlers data w :
  emit event data (on event h handlers) w
  = match emit event data handlers w with
    | (w1, Returned _) => h data w1
    | (w1, Thrown e) => (w1, Thrown e)
    end ∧
  (other ≠ event →
   emit other data (on event h handlers) w = emit other data handlers w) ∧
  (handlers !! event = None →
   emit event data handlers w = (w, Returned ())).
Proof.
  unfold emit. split_and!.
  - rewrite HubFacts.on_lookup, HubFacts.forEach_app.
    destruct (forEach _ data w) as [w1 [[]|e]]; [|done].
    simpl. by destruct (h data w1) as [w2 [[]|e]].
  - intros Hne. by rewrite HubFacts.on_lookup_ne.
  - by intros ->.
Qed.

Lemma subscriptions_are_per_event_witness :
  emit "qr" () (on "message" (HubTrace.faulty "boom") ∅) []
  = emit "qr" () (∅ : gmap string (list (@handler (list string) unit))) [].
Proof.
  destruct (subscriptions_are_per_event "message" "qr"
              (HubTrace.faulty "boom") ∅ () []) as (_ & H & _).
  apply H. discriminate.
Defined.

End HubMore.

Module WebhookMore.
Import WhatsAppService WebhookRoutes Samples HubClock.

Section Routes.
Variable stringify : Payload → string.
Variable hmacSha256Hex : string → string → string.
Variable isURL : string → bool.
Variable fetch : Request → Z + string.

Local Abbreviation register := (register isURL).
Local Abbreviation notification := (notification stringify hmacSha256Hex).
Local Abbreviation sendWebhookNotification :=
  (sendWebhookNotification stringify hmacSha256Hex).
Local Abbreviation resume := (resume stringify hmacSha256Hex).
Local Abbreviation resumeAll := (resumeAll stringify hmacSha256Hex).
Local Abbreviation settleAll := (settleAll fetch).
Local Abbreviation fetchLine := (fetchLine fetch).

(** The number of times [e] is named in [evs]. *)
Local Abbreviation times e evs := (length (filter (λ x : string, x = e) evs)).

Lemma register_valid b u evs hub :
  r_url b = Some u → isURL u = true → r_events b = Some evs → evs ≠ [] →
  register b hub
  = (Created ("wh_" +:+ pretty (clock (net hub))) u evs,
     mkHub
       (mkNet (clock (net hub))
          (<["wh_" +:+ pretty (clock (net hub)) :=
              mkWebhook ("wh_" +:+ pretty (clock (net hub))) u evs
                (r_secret b) (clock (net hub)) true]> (webhooks (net hub)))
          (pending (net hub)) (inflight (net hub))
          (outbox (net hub)) (logged (net hub)))
       (foldl (λ hs event,
                 on event (forward ("wh_" +:+ pretty (clock (net hub))) event)
                   hs)
          (eventHandlers hub) evs)).
Proof.
  intros Hu Hok Hevs Hne.
  unfold WebhookRoutes.register, validationErrors.
  rewrite Hu, Hok, Hevs. by destruct evs.
Qed.

Lemma handlers_after webhookId evs e
    (hs : gmap string (list (@handler Net EventData))) :
  default [] (foldl (λ hs event, on event (forward webhookId event) hs)
                hs evs !! e)
  = default [] (hs !! e) ++ replicate (times e evs) (forward webhookId e).
Proof.
  revert hs. induction evs as [|ev evs IH]; intros hs; simpl.
  - by rewrite app_nil_r.
  - rewrite IH. destruct (decide (ev = e)) as [->|Hne].
    + rewrite HubFacts.on_lookup, filter_cons_True by done.
      by rewrite <- app_assoc.
    + rewrite HubFacts.on_lookup_ne, filter_cons_False by done. done.
Qed.

(** The listeners of an active registration leave one waiting delivery
    each, and nothing else. *)
Lemma enqueues n wh webhookId e d nt :
  webhooks nt !! webhookId = Some wh → active wh = true →
  forEach (replicate n (forward webhookId e)) d nt
  = (mkNet (clock nt) (webhooks nt)
       (pending nt ++ replicate n (mkDelivery webhookId wh e d))
       (inflight nt) (outbox nt) (logged nt),
     Returned ()).
Proof.
  intros Hwh Hact. revert nt Hwh.
  induction n as [|n IH]; intros nt Hwh.
  - simpl. rewrite app_nil_r. by destruct nt.
  - simpl. unfold forward at 1. rewrite Hwh, Hact.
    rewrite IH by done. simpl. by rewrite <- app_assoc.
Qed.

Lemma silent n webhookId e d nt :
  (∀ wh, webhooks nt !! webhookId = Some wh → active wh = false) →
  forEach (replicate n (forward webhookId e)) d nt = (nt, Returned ()).
Proof.
  intros Hoff. induction n as [|n IH]; [done|].
  simpl. unfold forward at 1.
  destruct (webhooks nt !! webhookId) as [wh|] eqn:Hwh; [|done].
  by rewrite (Hoff wh eq_refl).
Qed.

Lemma resumeAll_cons t ts nt :
  resumeAll (t :: ts) nt = resumeAll ts (resume 0 (netAt t nt)).
Proof. reflexivity. Qed.

Lemma resume_sends dl rest t nt :
  pending nt = dl :: rest → refusedByHmac (d_webhook dl) = false →
  resume 0 (netAt t nt)
  = mkNet t (webhooks nt) rest
      (inflight nt ++ [notification (d_webhook dl) (d_event dl) (d_data dl) t])
      (outbox nt ++ [notification (d_webhook dl) (d_event dl) (d_data dl) t])
      (logged nt).
Proof.
  intros Hp Hok. unfold WebhookRoutes.resume, netAt.
  cbn [pending clock webhooks inflight outbox logged]. rewrite Hp.
  cbn [lookup list_lookup]. unfold WebhookRoutes.sendWebhookNotification.
  by rewrite Hok.
Qed.

Lemma resume_refused dl rest t nt :
  pending nt = dl :: rest → refusedByHmac (d_webhook dl) = true →
  resume 0 (netAt t nt)
  = mkNet t (webhooks nt) rest (inflight nt) (outbox nt)
      (logged nt
         ++ ["Error enviando webhook " +:+ d_id dl
               +:+ ": ERR_INVALID_ARG_TYPE"]).
Proof.
  intros Hp Hbad. unfold WebhookRoutes.resume, netAt.
  cbn [pending clock webhooks inflight outbox logged]. rewrite Hp.
  cbn [lookup list_lookup]. unfold WebhookRoutes.sendWebhookNotification.
  by rewrite Hbad.
Qed.

(** What the waiting deliveries of one registration and one event do
    when they go on at the instants [ts]. *)
Lemma resumeAll_sends dl ts nt :
  pending nt = replicate (length ts) dl →
  refusedByHmac (d_webhook dl) = false →
  pending (resumeAll ts nt) = [] ∧
  inflight (resumeAll ts nt)
    = inflight nt
      ++ (notification (d_webhook dl) (d_event dl) (d_data dl) <$> ts) ∧
  outbox (resumeAll ts nt)
    = outbox nt
      ++ (notification (d_webhook dl) (d_event dl) (d_data dl) <$> ts) ∧
  logged (resumeAll ts nt) = logged nt.
Proof.
  intros Hp Hok. revert nt Hp.
  induction ts as [|t ts IH]; intros nt Hp.
  - simpl. by rewrite !app_nil_r.
  - rewrite resumeAll_cons, (resume_sends dl (replicate (length ts) dl))
      by done.
    destruct (IH (mkNet t (webhooks nt) (replicate (length ts) dl)
                    (inflight nt
                       ++ [notification (d_webhook dl) (d_event dl)
                             (d_data dl) t])
                    (outbox nt
                       ++ [notification (d_webhook dl) (d_event dl)
                             (d_data dl) t])
                    (logged nt)))
      as (E1 & E2 & E3 & E4); [done|].
    rewrite E1, E2, E3, E4. cbn [pending clock webhooks inflight outbox logged].
    rewrite fmap_cons. by rewrite <- !app_assoc.
Qed.

Lemma resumeAll_refused dl ts nt :
  pending nt = replicate (length ts) dl →
  refusedByHmac (d_webhook dl) = true →
  pending (resumeAll ts nt) = [] ∧
  inflight (resumeAll ts nt) = inflight nt ∧
  outbox (resumeAll ts nt) = outbox nt ∧
  logged (resumeAll ts nt)
    = logged nt
      ++ replicate (length ts)
           ("Error enviando webhook " +:+ d_id dl
              +:+ ": ERR_INVALID_ARG_TYPE").
Proof.
  intros Hp Hbad. revert nt Hp.
  induction ts as [|t ts IH]; intros nt Hp.
  - simpl. by rewrite !app_nil_r.
  - rewrite resumeAll_cons, (resume_refused dl (replicate (length ts) dl))
      by done.
    destruct (IH (mkNet t (webhooks nt) (replicate (length ts) dl)
                    (inflight nt) (outbox nt)
                    (logged nt
                       ++ ["Error enviando webhook " +:+ d_id dl
                             +:+ ": ERR_INVALID_ARG_TYPE"])))
      as (E1 & E2 & E3 & E4); [done|].
    rewrite E1, E2, E3, E4. cbn [pending clock webhooks inflight outbox logged].
    cbn [length replicate]. by rewrite <- !app_assoc.
Qed.

Lemma settleAll_succ count nt :
  settleAll (S count) nt = settleAll count (settle fetch 0 nt).
Proof. unfold HubClock.settleAll. apply Nat.iter_succ_r. Qed.

Lemma settleAll_logs requests nt :
  inflight nt = requests →
  pending (settleAll (length requests) nt) = pending nt ∧
  inflight (settleAll (length requests) nt) = [] ∧
  outbox (settleAll (length requests) nt) = outbox nt ∧
  logged (settleAll (length requests) nt)
    = logged nt ++ (fetchLine <$> requests).
Proof.
  revert nt. induction requests as [|rq requests IH]; intros nt Hin.
  - simpl. by rewrite app_nil_r.
  - cbn [length]. rewrite settleAll_succ.
    assert (settle fetch 0 nt
            = mkNet (clock nt) (webhooks nt) (pending nt) requests
                (outbox nt) (logged nt ++ [fetchLine rq])) as ->.
    { unfold WebhookRoutes.settle. by rewrite Hin. }
    destruct (IH (mkNet (clock nt) (webhooks nt) (pending nt) requests
                    (outbox nt) (logged nt ++ [fetchLine rq])))
      as (E1 & E2 & E3 & E4); [done|].
    rewrite E1, E2, E3, E4. cbn [pending clock webhooks inflight outbox logged].
    rewrite fmap_cons. by rewrite <- !app_assoc.
Qed.


(** X28: A webhook that was switched off or deleted gets nothing: after the
    toggle or the deletion the event is emitted without a request, but
    the listeners of the registration stay subscribed, as many as
    before. *)
Theorem paused_or_deleted_webhook_is_silent b u evs hub e d t hub2 :
  r_url b = Some u → isURL u = true → r_events b = Some evs → evs ≠ [] →
  eventHandlers hub !! e = None →
  let webhookId := "wh_" +:+ pretty (clock (net hub)) in
  let r := register b hub in
  hub2 = (toggle webhookId r.2).2 ∨ hub2 = (unregister webhookId r.2).2 →
  publish e d (at_ t hub2) = (at_ t hub2, Returned ()) ∧
  eventHandlers hub2 = eventHandlers r.2 ∧
  length (default [] (eventHandlers hub2 !! e)) = times e evs.
Proof.
  intros Hu Hok Hevs Hne Hnone webhookId r Hhub2.
  subst r. rewrite (register_valid b u evs hub) in Hhub2 by done.
  rewrite (register_valid b u evs hub) by done.
  fold webhookId in Hhub2 |- *. cbn [snd] in Hhub2 |- *.
  unfold toggle, unregister in Hhub2.
  cbn [net webhooks eventHandlers clock pending inflight outbox logged]
    in Hhub2.
  rewrite lookup_insert_eq in Hhub2. cbn [snd negb active] in Hhub2.
  assert (eventHandlers hub2
          = foldl (λ hs event, on event (forward webhookId event) hs)
              (eventHandlers hub) evs) as Hhs.
  { by destruct Hhub2 as [-> | ->]. }
  assert (∀ wh, webhooks (net hub2) !! webhookId = Some wh →
                active wh = false) as Hoff.
  { destruct Hhub2 as [-> | ->]; simpl; intros wh.
    - rewrite lookup_insert_eq. by intros [= <-].
    - by rewrite lookup_delete_eq. }
  split_and!.
  - unfold publish, emit, at_.
    cbn [net eventHandlers].
    rewrite Hhs, handlers_after, Hnone. cbn [default app].
    by rewrite silent.
  - by rewrite Hhs.
  - rewrite Hhs, handlers_after, Hnone. cbn [default app].
    by rewrite length_replicate.
Qed.

(** X29: Toggling a stored webhook twice leaves the process as it was; the
    first answer carries the negated flag and the second the original
    one. *)
Theorem toggle_twice i wh hub :
  webhooks (net hub) !! i = Some wh →
  (toggle i hub).1 = Toggled i (negb (active wh)) ∧
  (toggle i (toggle i hub).2).1 = Toggled i (active wh) ∧
  (toggle i (toggle i hub).2).2 = hub.
Proof.
  intros Hwh. unfold toggle. rewrite Hwh. cbn [fst snd net webhooks].
  rewrite lookup_insert_eq. cbn [fst snd net webhooks eventHandlers clock
    pending inflight outbox logged active id url events secret createdAt].
  rewrite negb_involutive, insert_insert_eq.
  split_and!; try done.
  destruct hub as [[c ws p f o l] hs]. destruct wh. simpl in *.
  by rewrite insert_id.
Qed.


End Routes.


Lemma paused_or_deleted_webhook_is_silent_witness :
  let hub2 :=
    (unregister "wh_1700000000000"
       (register prefixedByHttp
          (mkRegisterBody (Some "https://tuapp.com/webhook")
             (Some ["message"]) None)
          emptyHub).2).2 in
  publish "message" NoData (at_ 1700000000500 hub2)
  = (at_ 1700000000500 hub2, Returned ()).
Proof.
  intros hub2.
  destruct (paused_or_deleted_webhook_is_silent prefixedByHttp
              (mkRegisterBody (Some "https://tuapp.com/webhook")
                 (Some ["message"]) None)
              "https://tuapp.com/webhook" ["message"]
              emptyHub "message" NoData 1700000000500 hub2)
    as (H & _).
  - reflexivity.
  - reflexivity.
  - reflexivity.
  - discriminate.
  - reflexivity.
  - by right.
  - exact H.
Defined.

Lemma toggle_twice_witness :
  let hub :=
    (register prefixedByHttp
       (mkRegisterBody (Some "https://tuapp.com/webhook")
          (Some ["message"]) None)
       emptyHub).2 in
  (toggle "wh_1700000000000" (toggle "wh_1700000000000" hub).2).2 = hub.
Proof.
  intros hub.
  destruct (toggle_twice "wh_1700000000000"
              (mkWebhook "wh_1700000000000" "https://tuapp.com/webhook"
                 ["message"] None 1700000000000 true) hub)
    as (_ & _ & H).
  - reflexivity.
  - exact H.
Defined.


End WebhookMore.
